(** * Trilium image service ([src/services/image.js])

    A shallow embedding of the image upload pipeline: format detection,
    the shrink policy, the resize step and the commit protocol of
    [saveImage] / [updateImage], followed by the properties established
    about them.

    Conventions of the embedding.
    - A [Buffer] is a [list byte]; [byteLength] is [length].
    - A JavaScript string is a [string] (one character per byte); case
      mapping is the ASCII one.
    - A thrown exception or a rejected promise is the [inl] of a sum;
      a returned value or a fulfilled promise is the [inr].
    - The npm packages the file requires ([is-svg], [image-type],
      [is-animated], [sanitize-filename], [jimp]'s codecs) are not part
      of the repository: they are the fields of the record [Libs],
      over which every definition is parameterised.
    - A JavaScript number that [jimp] computes by division is an IEEE
      binary64 [float]; the numbers the service itself handles (sizes,
      options) are integers, in [Z].
    - The services of the repository the file requires ([becca], [log],
      [notes], [note_revisions], [options], [protected_session], [sql])
      act on an explicit [World]. *)

From Stdlib Require Import ZArith Lia Ascii String Floats Uint63.
From Stdlib.Strings Require Import Byte.
From stdpp Require Import strings list gmap.

(** ** Values *)

Abbreviation bytes := (list byte).

(** A thrown JavaScript value: a [TypeError] raised by the language
    itself, or an [Error] raised by a library, with its stack text. *)
Inductive exn : Type :=
  | TypeError (message : string)
  | LibError (stack : string).

Definition exn_stack (e : exn) : string :=
  match e with
  | TypeError m => "TypeError: " +:+ m
  | LibError s => s
  end.

Abbreviation result A := (exn + A)%type.

(** The object [image-type] returns for a recognised header. *)
Record FileType := { ft_ext : string; ft_mime : string }.

(** What [getImageType] can return: an object carrying an [ext]
    property (with or without [mime]), or a primitive string. *)
Inductive ImageFormat : Type :=
  | FormatObject (ext : string) (mime : option string)
  | FormatString (s : string).

(** Property read [imageFormat.ext]; [None] is [undefined]. A primitive
    string has no [ext] property. *)
Definition get_ext (f : ImageFormat) : option string :=
  match f with
  | FormatObject e _ => Some e
  | FormatString _ => None
  end.

Definition of_FileType (t : FileType) : ImageFormat :=
  FormatObject (ft_ext t) (Some (ft_mime t)).

(** ** String helpers *)

Definition lower_ascii (c : ascii) : ascii :=
  let n := N_of_ascii c in
  if ((65 <=? n) && (n <=? 90))%N then ascii_of_N (n + 32) else c.

(** [String.prototype.toLowerCase], on ASCII. *)
Fixpoint toLowerCase (s : string) : string :=
  match s with
  | EmptyString => EmptyString
  | String c r => String (lower_ascii c) (toLowerCase r)
  end.

(** [Array.prototype.includes] on an array of strings, the searched
    value possibly [undefined]. *)
Definition includes (l : list string) (v : option string) : bool :=
  match v with
  | Some s => existsb (String.eqb s) l
  | None => false
  end.

(** ** Third-party packages *)

(** A decoded [jimp] image: the bitmap and the two encoder settings
    the service touches. *)
Record Image := {
  bitmap_width : Z;
  bitmap_height : Z;
  bitmap_data : bytes;
  img_quality : Z;
  img_background : Z
}.

Record Libs := {
  (** [is-svg] *)
  isSvg : bytes -> bool;
  (** [image-type]: [None] is [null] *)
  imageType : bytes -> option FileType;
  (** [is-animated], throwing on a buffer it cannot walk through *)
  isAnimated : bytes -> result bool;
  (** [sanitize-filename] *)
  sanitizeFilename : string -> string;
  (** [jimp.read], rejecting on bytes it cannot decode *)
  jimp_read : bytes -> result Image;
  (** resampling of the pixel data from one size to another *)
  jimp_resample : Z -> Z -> Z -> Z -> bytes -> bytes;
  (** [image.getBufferAsync(jimp.MIME_JPEG)] *)
  jimp_getBuffer_jpeg : Image -> result bytes
}.

(** ** Format detection and MIME derivation *)

Section Detection.
Context (L : Libs).

Definition getImageType (buffer : bytes) : ImageFormat :=
  if isSvg L buffer then FormatObject "svg" None
  else match imageType L buffer with
       | Some t => of_FileType t
       | None => FormatString "jpg" (* optimistic JPG default *)
       end.

End Detection.

(** [ext] is whatever the caller passes, [None] for [undefined]:
    calling [toLowerCase] on [undefined] throws. *)
Definition getImageMimeFromExtension (ext : option string) : result string :=
  match ext with
  | None => inl (TypeError "Cannot read property 'toLowerCase' of undefined")
  | Some ext =>
      let ext := toLowerCase ext in
      inr ("image/" +:+ (if String.eqb ext "svg" then "svg+xml" else ext))
  end.

(** The derivation rule as the specification words it. *)
Definition deriveMime_spec (extension : string) : string :=
  if String.eqb extension "svg" then "image/svg+xml"
  else "image/" +:+ toLowerCase extension.

(** ** The world the services act on *)

(** A note of [becca]. Its [noteId] is the key it is stored under. *)
Record Note := {
  parentNoteId : string;
  title : string;
  noteType : string;
  mime : string;
  content : bytes;
  isProtected : bool;
  labels : list (string * string)
}.

Record NoteRevision := {
  rev_noteId : string;
  rev_title : string;
  rev_mime : string;
  rev_content : bytes;
  rev_isProtected : bool
}.

Inductive LogEntry : Type :=
  | LogInfo (message : string)
  | LogError (message : string).

Record World := {
  (** [becca]: the notes by id *)
  notes : gmap string Note;
  (** the revisions recorded so far, oldest first *)
  noteRevisions : list NoteRevision;
  (** the log file, oldest line first *)
  logLines : list LogEntry;
  (** the option store, read as integers *)
  options : string -> Z;
  (** whether a protected session is active *)
  protectedSession : bool;
  (** the generator of entity ids and the number of ids drawn *)
  newEntityId : N -> string;
  idsDrawn : N
}.

Definition with_notes (f : gmap string Note -> gmap string Note) (w : World) : World :=
  {| notes := f (notes w); noteRevisions := noteRevisions w;
     logLines := logLines w; options := options w;
     protectedSession := protectedSession w;
     newEntityId := newEntityId w; idsDrawn := idsDrawn w |}.

Definition with_noteRevisions (f : list NoteRevision -> list NoteRevision) (w : World) : World :=
  {| notes := notes w; noteRevisions := f (noteRevisions w);
     logLines := logLines w; options := options w;
     protectedSession := protectedSession w;
     newEntityId := newEntityId w; idsDrawn := idsDrawn w |}.

Definition with_logLines (f : list LogEntry -> list LogEntry) (w : World) : World :=
  {| notes := notes w; noteRevisions := noteRevisions w;
     logLines := f (logLines w); options := options w;
     protectedSession := protectedSession w;
     newEntityId := newEntityId w; idsDrawn := idsDrawn w |}.

Definition with_idsDrawn (n : N) (w : World) : World :=
  {| notes := notes w; noteRevisions := noteRevisions w;
     logLines := logLines w; options := options w;
     protectedSession := protectedSession w;
     newEntityId := newEntityId w; idsDrawn := n |}.

(** ** Computations

    A computation runs from a world and yields the worlds it passes
    through, one per write it performs ([trace]), the world it stops in
    ([final]) and what it returned or threw ([value]). *)

Record Outcome (A : Type) := {
  trace : list World;
  final : World;
  value : result A
}.
Arguments trace {A} _.
Arguments final {A} _.
Arguments value {A} _.

Definition M (A : Type) : Type := World -> Outcome A.

Definition ret {A} (a : A) : M A :=
  fun w => {| trace := []; final := w; value := inr a |}.

Definition throw {A} (e : exn) : M A :=
  fun w => {| trace := []; final := w; value := inl e |}.

Definition bind {A B} (m : M A) (k : A -> M B) : M B :=
  fun w =>
    match m w with
    | {| trace := t; final := w1; value := inl e |} =>
        {| trace := t; final := w1; value := inl e |}
    | {| trace := t; final := w1; value := inr a |} =>
        match k a w1 with
        | {| trace := t'; final := w2; value := v |} =>
            {| trace := t ++ t'; final := w2; value := v |}
        end
    end.

Notation "'do' x <- m ; k" := (bind m (fun x => k))
  (at level 10, x name, m at level 100, k at level 200, only parsing).

(** Lifting of a pure step that may throw. *)
Definition lift {A} (r : result A) : M A :=
  match r with
  | inl e => throw e
  | inr a => ret a
  end.

Definition gets {A} (f : World -> A) : M A :=
  fun w => {| trace := []; final := w; value := inr (f w) |}.

(** One write. *)
Definition effect (f : World -> World) : M unit :=
  fun w => {| trace := [f w]; final := f w; value := inr tt |}.

(** [try { m } catch (e) { h e }] *)
Definition try_catch {A} (m : M A) (h : exn -> M A) : M A :=
  fun w =>
    match m w with
    | {| trace := t; final := w1; value := inl e |} =>
        match h e w1 with
        | {| trace := t'; final := w2; value := v |} =>
            {| trace := t ++ t'; final := w2; value := v |}
        end
    | {| trace := t; final := w1; value := inr a |} =>
        {| trace := t; final := w1; value := inr a |}
    end.

(** The worlds an observer can see while [m] runs from [w]. *)
Definition reachable {A} (m : M A) (w : World) : list World :=
  w :: trace (m w).

(** [m] keeps every world it passes through, and the one it stops in,
    in relation [R] with the world it started from. *)
Definition stays {A} (R : World -> World -> Prop) (m : M A) : Prop :=
  forall w, Forall (R w) (trace (m w)) /\ R w (final (m w)).

(** World [s] holds the revisions of world [w], as they were. *)
Definition same_revisions (w s : World) : Prop :=
  noteRevisions s = noteRevisions w.

(** World [s] holds the notes and the revisions of world [w]. *)
Definition same_store (w s : World) : Prop :=
  notes s = notes w /\ noteRevisions s = noteRevisions w.

(** A revision of note [id] holding the content [c] is on record. *)
Definition has_snapshot (s : World) (id : string) (c : bytes) : Prop :=
  exists r, r ∈ noteRevisions s /\ rev_noteId r = id /\ rev_content r = c.

(** ** Services of the repository

    Their source files are not part of the sources at hand; each is
    given the behaviour the specification states for it. A note handed
    around by the service is a reference into [becca]: it is modelled
    by its id, [None] standing for [undefined]. *)

(** Modelled from the spec: [log.info] and [log.error] of [./log],
    the logger: a line is appended to the log. *)
Definition log_info (message : string) : M unit :=
  effect (with_logLines (fun l => l ++ [LogInfo message])).

Definition log_error (message : string) : M unit :=
  effect (with_logLines (fun l => l ++ [LogError message])).

(** Modelled from the spec: [becca.getNote] of [../becca/becca],
    "getNoteById(id) -> Note"; an unknown id gives [undefined]. *)
Definition getNote (id : string) : M (option string) :=
  gets (fun w => match notes w !! id with Some _ => Some id | None => None end).

(** Reading through a note reference; a property read on [undefined]
    throws. *)
Definition deref (note : option string) : M Note :=
  match note with
  | None => throw (TypeError "Cannot read properties of undefined")
  | Some id =>
      do n <- gets (fun w => notes w !! id);
      match n with
      | Some n => ret n
      | None => throw (TypeError "Cannot read properties of undefined")
      end
  end.

(** Property read [note.noteId]. *)
Definition get_noteId (note : option string) : M string :=
  match note with
  | None => throw (TypeError "Cannot read properties of undefined")
  | Some id => ret id
  end.

Definition update_note (f : Note -> Note) (note : option string) : M unit :=
  do n <- deref note;
  do id <- get_noteId note;
  effect (with_notes (<[id := f n]>)).

Definition snapshot_of (id : string) (n : Note) : NoteRevision :=
  {| rev_noteId := id; rev_title := title n; rev_mime := mime n;
     rev_content := content n; rev_isProtected := false |}.

(** Modelled from the spec: [createNoteRevision] of [./note_revisions],
    "createSnapshot(note)": a revision snapshot of the note's current
    state, capturing the prior content before mutation. *)
Definition createNoteRevision (note : option string) : M unit :=
  do n <- deref note;
  do id <- get_noteId note;
  effect (with_noteRevisions (fun l => l ++ [snapshot_of id n])).

Definition protect_revision (id : string) (r : NoteRevision) : NoteRevision :=
  if String.eqb (rev_noteId r) id then
    {| rev_noteId := rev_noteId r; rev_title := rev_title r; rev_mime := rev_mime r;
       rev_content := rev_content r; rev_isProtected := true |}
  else r.

(** Modelled from the spec: [protectNoteRevisions] of
    [./note_revisions], "markSnapshotProtected(note)": the snapshots of
    the note are marked as protection-inheriting if the note is
    protected. *)
Definition protectNoteRevisions (note : option string) : M unit :=
  do n <- deref note;
  do id <- get_noteId note;
  if isProtected n
  then effect (with_noteRevisions (map (protect_revision id)))
  else ret tt.

Fixpoint set_label (name v : string) (l : list (string * string)) : list (string * string) :=
  match l with
  | [] => [(name, v)]
  | (k, x) :: r => if String.eqb k name then (k, v) :: r else (k, x) :: set_label name v r
  end.

Definition note_with_labels (f : list (string * string) -> list (string * string)) (n : Note) : Note :=
  {| parentNoteId := parentNoteId n; title := title n;
     noteType := noteType n; mime := mime n; content := content n;
     isProtected := isProtected n; labels := f (labels n) |}.

Definition note_with_mime (m : string) (n : Note) : Note :=
  {| parentNoteId := parentNoteId n; title := title n;
     noteType := noteType n; mime := m; content := content n;
     isProtected := isProtected n; labels := labels n |}.

Definition note_with_content (c : bytes) (n : Note) : Note :=
  {| parentNoteId := parentNoteId n; title := title n;
     noteType := noteType n; mime := mime n; content := c;
     isProtected := isProtected n; labels := labels n |}.

(** Modelled from the spec: [note.setLabel] and [note.addLabel] of the
    note entity, "Note.setMetadata(key, value)": [setLabel] gives the
    label of that name the value, [addLabel] adds a label. *)
Definition note_setLabel (note : option string) (name v : string) : M unit :=
  update_note (note_with_labels (set_label name v)) note.

Definition note_addLabel (note : option string) (name v : string) : M unit :=
  update_note (note_with_labels (fun l => l ++ [(name, v)])) note.

(** Modelled from the spec: the assignment [note.mime = m],
    "Note.setMime(mime)". *)
Definition note_set_mime (note : option string) (m : string) : M unit :=
  update_note (note_with_mime m) note.

(** Modelled from the spec: [note.save] of the note entity,
    "Note.save()": the note as it stands is persisted. The model keeps
    one copy of a note, so the write leaves it as it is. *)
Definition note_save (note : option string) : M unit :=
  update_note (fun n => n) note.

(** Modelled from the spec: [note.setContent] of the note entity,
    "Note.setContent(bytes)". *)
Definition note_setContent (note : option string) (c : bytes) : M unit :=
  update_note (note_with_content c) note.

Record NoteConfig := {
  cfg_parentNoteId : string;
  cfg_title : string;
  cfg_type : string;
  cfg_mime : string;
  cfg_content : bytes;
  cfg_isProtected : bool
}.

(** Modelled from the spec: [createNewNote] of [./notes],
    "createNote(config) -> Note where config carries parentId, title,
    type, initial mime, initial content, protection flag": a note with
    a newly drawn id and the fields of the configuration. *)
Definition createNewNote (c : NoteConfig) : M (option string) :=
  do id <- gets (fun w => newEntityId w (idsDrawn w));
  do _ <- effect (fun w =>
    with_idsDrawn (N.succ (idsDrawn w))
      (with_notes (<[id := {| parentNoteId := cfg_parentNoteId c;
                              title := cfg_title c; noteType := cfg_type c;
                              mime := cfg_mime c; content := cfg_content c;
                              isProtected := cfg_isProtected c; labels := [] |}]>) w));
  ret (Some id).

(** Modelled from the spec: [getOptionInt] of [./options],
    "getIntOption(name) -> int". *)
Definition getOptionInt (name : string) : M Z :=
  gets (fun w => options w name).

(** Modelled from the spec: [isProtectedSessionAvailable] of
    [./protected_session], whether "an active protected session
    exists". *)
Definition isProtectedSessionAvailable : M bool :=
  gets protectedSession.

Definition rollback (entry now : World) : World :=
  with_noteRevisions (fun _ => noteRevisions entry) (with_notes (fun _ => notes entry) now).

(** Modelled from the spec: [sql.transactional] of [./sql],
    "runInTransaction(fn) -- executes fn with all-or-nothing
    durability; any failure inside aborts the whole enclosed write
    set": when [fn] throws, the notes and revisions are put back as
    they were on entry and the exception goes on. *)
Definition transactional {A} (fn : M A) : M A :=
  fun w =>
    match fn w with
    | {| trace := t; final := w1; value := inr a |} =>
        {| trace := t; final := w1; value := inr a |}
    | {| trace := t; final := w1; value := inl e |} =>
        {| trace := t ++ [rollback w w1]; final := rollback w w1; value := inl e |}
    end.

(** ** The parts of [jimp] that [resize] drives

    [jimp] is a third-party package. Its decoder, resampler and encoder
    are fields of [Libs]; what it does with the arguments of
    [image.resize], [image.quality] and [image.background] is written
    out here, the side it computes for [AUTO] in binary64 arithmetic
    as the package does. *)

Module Jimp.
Local Open Scope Z_scope.

(** [jimp.AUTO] *)
Definition AUTO : Z := -1.

(** An integer as a JavaScript number (exact below 2^53). *)
Definition to_double (z : Z) : float :=
  if z <? 0 then PrimFloat.opp (PrimFloat.of_uint63 (Uint63.of_Z (- z)))
  else PrimFloat.of_uint63 (Uint63.of_Z z).

(** [Math.round]: the nearest integer, halves going up; [None] for
    [NaN] and the infinities. *)
Definition Math_round (x : float) : option Z :=
  match Prim2SF x with
  | S754_zero _ => Some 0
  | S754_finite s m e =>
      let n := if s then Z.neg m else Z.pos m in
      Some (if 0 <=? e then n * 2 ^ e
            else (2 * n + 2 ^ (- e)) / (2 * 2 ^ (- e)))
  | _ => None
  end.

(** The side [jimp] computes for [AUTO]: [own * (target / other)],
    where [own] is the present length of that side, [other] the
    present length of the other side and [target] the length asked for
    the other side. *)
Definition auto_side (own target other : Z) : float :=
  PrimFloat.mul (to_double own) (PrimFloat.div (to_double target) (to_double other)).

(** A side on its way through [image.resize]: the integer the caller
    gave, or the number computed for [AUTO]. *)
Inductive side : Type :=
  | Given (n : Z)
  | Computed (x : float).

Definition negative (s : side) : bool :=
  match s with
  | Given n => n <? 0
  | Computed x => PrimFloat.ltb x PrimFloat.zero
  end.

Definition rounded (s : side) : option Z :=
  match s with
  | Given n => Some n
  | Computed x => Math_round x
  end.

(** [image.resize(w, h)]: a side given as [AUTO] is scaled by the
    ratio of the other side to its present value; a negative side is
    refused; both sides are rounded, and the resizer refuses a size,
    present or asked for, that is not positive. *)
Definition resize (L : Libs) (image : Image) (w h : Z) : result Image :=
  if (w =? AUTO) && (h =? AUTO) then
    inl (LibError "w and h cannot both be set to auto")
  else
    let bw := bitmap_width image in
    let bh := bitmap_height image in
    let w1 := if w =? AUTO then Computed (auto_side bw h bh) else Given w in
    let h1 := if h =? AUTO then Computed (auto_side bh w bw) else Given h in
    if negative w1 || negative h1 then
      inl (LibError "w and h must be positive numbers")
    else
      match rounded w1, rounded h1 with
      | Some w', Some h' =>
          if (0 <? bw) && (0 <? bh) && (0 <? w') && (0 <? h') then
            inr {| bitmap_width := w'; bitmap_height := h';
                   bitmap_data := jimp_resample L bw bh w' h' (bitmap_data image);
                   img_quality := img_quality image;
                   img_background := img_background image |}
          else inl (LibError "Invalid settings specified for the resizer.")
      | _, _ => inl (LibError "Invalid settings specified for the resizer.")
      end.

(** [image.quality(n)] *)
Definition quality (image : Image) (n : Z) : result Image :=
  if (n <? 0) || (100 <? n) then inl (LibError "n must be a number 0 - 100")
  else inr {| bitmap_width := bitmap_width image; bitmap_height := bitmap_height image;
              bitmap_data := bitmap_data image;
              img_quality := n; img_background := img_background image |}.

(** [image.background(hex)] *)
Definition background (image : Image) (hex : Z) : Image :=
  {| bitmap_width := bitmap_width image; bitmap_height := bitmap_height image;
     bitmap_data := bitmap_data image;
     img_quality := img_quality image; img_background := hex |}.

End Jimp.

(** ** The pipeline *)

Record ProcessedAsset := {
  buffer : bytes;
  imageFormat : ImageFormat
}.

Record SaveResult := {
  res_fileName : string;
  res_note : option string;
  res_noteId : string;
  res_url : string
}.

(** Truthiness of what [getImageType] returned. *)
Definition truthy (f : ImageFormat) : bool :=
  match f with
  | FormatObject _ _ => true
  | FormatString s => negb (String.eqb s "")
  end.

Definition newline : string := String (ascii_of_nat 10) EmptyString.

(** The line [shrinkImage] logs when [resize] has thrown [e]. *)
Definition resize_failure_line (originalName : string) (e : exn) : LogEntry :=
  LogError ("Failed to resize image '" +:+ originalName +:+ "'"
            +:+ newline +:+ "Stack: " +:+ exn_stack e).

Section Pipeline.
Context (L : Libs).
Local Open Scope Z_scope.

(** The branch of [resize] that picks the side to bind, lines 139-144. *)
Definition resize_geometry (image : Image) (imageMaxWidthHeight : Z) : result Image :=
  if (bitmap_width image >? bitmap_height image) && (bitmap_width image >? imageMaxWidthHeight) then
    Jimp.resize L image imageMaxWidthHeight Jimp.AUTO
  else if bitmap_height image >? imageMaxWidthHeight then
    Jimp.resize L image Jimp.AUTO imageMaxWidthHeight
  else inr image.

Definition resize (buffer : bytes) (quality : Z) : M bytes :=
  do imageMaxWidthHeight <- getOptionInt "imageMaxWidthHeight";
  do image <- lift (jimp_read L buffer);
  do image <- lift (resize_geometry image imageMaxWidthHeight);
  do image <- lift (Jimp.quality image quality);
  (* when converting PNG to JPG we lose alpha channel, this is replaced
     by white to match Trilium white background *)
  let image := Jimp.background image 4294967295 in
  lift (jimp_getBuffer_jpeg L image).

Definition shrinkImage (buffer : bytes) (originalName : string) : M bytes :=
  do jpegQuality <- getOptionInt "imageJpegQuality";
  do finalImageBuffer <-
    try_catch (resize buffer jpegQuality)
      (fun e =>
         do _ <- log_error ("Failed to resize image '" +:+ originalName +:+ "'"
                            +:+ newline +:+ "Stack: " +:+ exn_stack e);
         ret buffer);
  (* if resizing did not help with size then save the original
     (can happen when e.g. resizing PNG into JPEG) *)
  ret (if (length buffer <=? length finalImageBuffer)%nat then buffer
       else finalImageBuffer).

(** The value of [shrinkImageSwitch] after lines 19-26 of
    [processImage], or what [isAnimated] threw there. *)
Definition shrinkPolicy (shrinkImageSwitch : bool) (origImageFormat : ImageFormat)
    (uploadBuffer : bytes) : result bool :=
  if truthy origImageFormat && includes ["webp"; "svg"; "gif"] (get_ext origImageFormat) then
    (* JIMP does not support webp at the moment *)
    inr false
  else
    match isAnimated L uploadBuffer with
    | inl e => inl e
    | inr true =>
        (* recompression of animated images will make them static *)
        inr false
    | inr false => inr shrinkImageSwitch
    end.

Definition processImage (uploadBuffer : bytes) (originalName : string)
    (shrinkImageSwitch : bool) : M ProcessedAsset :=
  let origImageFormat := getImageType L uploadBuffer in
  do shrinkImageSwitch <-
    lift (shrinkPolicy shrinkImageSwitch origImageFormat uploadBuffer);
  do finalImageBuffer <-
    (if shrinkImageSwitch then shrinkImage uploadBuffer originalName
     else ret uploadBuffer);
  let imageFormat := getImageType L finalImageBuffer in
  ret {| buffer := finalImageBuffer; imageFormat := imageFormat |}.

(** The callback both entry points hand to [then]: the commit inside
    [sql.transactional]. *)
Definition commit (note : option string) (r : ProcessedAsset) : M unit :=
  transactional
    (do m <- lift (getImageMimeFromExtension (get_ext (imageFormat r)));
     do _ <- note_set_mime note m;
     do _ <- note_save note;
     note_setContent note (buffer r)).

(** The promise chain [processImage(...).then(...)]: it is started by
    the entry point and settles after the entry point has returned.
    What [processImage] does before its first [await] (detection, the
    policy, reading the options) writes nothing, and what it throws
    there rejects its promise, so the chain is taken to run as a whole
    once the entry point has returned. *)
Definition detached (note : option string) (uploadBuffer : bytes)
    (originalName : string) (shrinkImageSwitch : bool) : M unit :=
  do r <- processImage uploadBuffer originalName shrinkImageSwitch;
  commit note r.

(** [updateImage] returns nothing; the embedding returns the promise
    chain it has started, to be run once it has returned. *)
Definition updateImage (noteId : string) (uploadBuffer : bytes)
    (originalName : string) : M (M unit) :=
  do _ <- log_info ("Updating image " +:+ noteId +:+ ": " +:+ originalName);
  do note <- getNote noteId;
  do _ <- createNoteRevision note;
  do _ <- protectNoteRevisions note;
  do _ <- note_setLabel note "originalFileName" originalName;
  (* resizing images asynchronously since JIMP does not support sync operation *)
  ret (detached note uploadBuffer originalName true).

(** [saveImage] returns its record together with the promise chain it
    has started. *)
Definition saveImage (parentNoteId : string) (uploadBuffer : bytes)
    (originalName : string) (shrinkImageSwitch : bool) : M (SaveResult * M unit) :=
  do _ <- log_info ("Saving image " +:+ originalName);
  let fileName := sanitizeFilename L originalName in
  do parentNote <- getNote parentNoteId;
  do parent <- deref parentNote;
  do isProtected <-
    (if isProtected parent then isProtectedSessionAvailable else ret false);
  do note <- createNewNote
    {| cfg_parentNoteId := parentNoteId; cfg_title := fileName;
       cfg_type := "image"; cfg_mime := "unknown"; cfg_content := [];
       cfg_isProtected := isProtected |};
  do _ <- note_addLabel note "originalFileName" originalName;
  do noteId <- get_noteId note;
  (* resizing images asynchronously since JIMP does not support sync operation *)
  ret ({| res_fileName := fileName; res_note := note; res_noteId := noteId;
          res_url := "api/images/" +:+ noteId +:+ "/" +:+ fileName |},
       detached note uploadBuffer originalName shrinkImageSwitch).

(** An entry point followed by the settling of its promise chain. *)
Definition then_settle {A} (entry : M (A * M unit)) : M A :=
  do r <- entry;
  do _ <- snd r;
  ret (fst r).

Definition updateImage_settled (noteId : string) (uploadBuffer : bytes)
    (originalName : string) : M unit :=
  do job <- updateImage noteId uploadBuffer originalName;
  job.

End Pipeline.

(** ** A small instance of the packages

    Header sniffing on the first bytes and a toy codec whose images
    carry their size in four header bytes. It is there to run the
    pipeline on concrete buffers. *)

Module Sample.

Fixpoint starts_with (p l : bytes) : bool :=
  match p, l with
  | [], _ => true
  | _ :: _, [] => false
  | a :: p', b :: l' => Byte.eqb a b && starts_with p' l'
  end.

Fixpoint occurs (p l : bytes) : bool :=
  starts_with p l ||
  match l with
  | [] => false
  | _ :: l' => occurs p l'
  end.

Definition svg_magic : bytes := [x3c; x73; x76; x67].
Definition png_magic : bytes := [x89; x50; x4e; x47].
Definition jpg_magic : bytes := [xff; xd8; xff].
Definition gif_magic : bytes := [x47; x49; x46].
Definition acTL : bytes := [x61; x63; x54; x4c].

Definition sniff (b : bytes) : option FileType :=
  if starts_with png_magic b then Some {| ft_ext := "png"; ft_mime := "image/png" |}
  else if starts_with jpg_magic b then Some {| ft_ext := "jpg"; ft_mime := "image/jpeg" |}
  else if starts_with gif_magic b then Some {| ft_ext := "gif"; ft_mime := "image/gif" |}
  else None.

Definition be16 (n : Z) : bytes :=
  let n := Z.to_N n in
  [default x00 (Byte.of_N (n / 256 mod 256)); default x00 (Byte.of_N (n mod 256))].

Definition of_be16 (hi lo : byte) : Z :=
  Z.of_N (Byte.to_N hi * 256 + Byte.to_N lo).

Definition decode (b : bytes) : result Image :=
  match sniff b, b with
  | Some t, _ :: _ :: _ :: _ :: wh :: wl :: hh :: hl :: data =>
      if String.eqb (ft_ext t) "gif" then inl (LibError "Unsupported MIME type: image/gif")
      else inr {| bitmap_width := of_be16 wh wl; bitmap_height := of_be16 hh hl;
                  bitmap_data := data; img_quality := 100; img_background := 0 |}
  | Some _, _ => inl (LibError "Error: unexpected end of file")
  | None, _ => inl (LibError "Error: Could not find MIME for Buffer <null>")
  end.

Definition encode (image : Image) : result bytes :=
  inr (jpg_magic ++ be16 (bitmap_width image) ++ be16 (bitmap_height image)
       ++ bitmap_data image).

Fixpoint strip_slashes (s : string) : string :=
  match s with
  | EmptyString => EmptyString
  | String c r =>
      if Ascii.eqb c "/" then strip_slashes r else String c (strip_slashes r)
  end.

(** Animation is looked for in PNG buffers only, and a PNG cut short
    of its header cannot be walked through. *)
Definition walk_chunks (b : bytes) : result bool :=
  if starts_with png_magic b then
    if (length b <? 8)%nat then
      inl (LibError "RangeError: Index out of range")
    else inr (occurs acTL b)
  else inr false.

Definition libs : Libs :=
  {| isSvg := starts_with svg_magic;
     imageType := sniff;
     isAnimated := walk_chunks;
     sanitizeFilename := strip_slashes;
     jimp_read := decode;
     jimp_resample := fun _ _ w h data => firstn (Z.to_nat (w * h)) data;
     jimp_getBuffer_jpeg := encode |}.

Definition folder : Note :=
  {| parentNoteId := "none"; title := "root"; noteType := "text";
     mime := "text/html"; content := []; isProtected := false; labels := [] |}.

Definition picture : Note :=
  {| parentNoteId := "root"; title := "cat.png"; noteType := "image";
     mime := "image/png"; content := png_magic ++ [x00; x01; x00; x01; x2a];
     isProtected := false; labels := [("originalFileName", "cat.png")] |}.

Definition world : World :=
  {| notes := <["img1" := picture]> {["root" := folder]};
     noteRevisions := [];
     logLines := [];
     options := fun name =>
       if String.eqb name "imageMaxWidthHeight" then 1000%Z
       else if String.eqb name "imageJpegQuality" then 75%Z else 0%Z;
     protectedSession := false;
     newEntityId := fun _ => "fresh1";
     idsDrawn := 0 |}.

(** A buffer with no signature at all. *)
Definition noise : bytes := [x00; x01; x02].

(** A toy PNG of 3000 by 2000 with three bytes of pixel data. *)
Definition big_png : bytes :=
  png_magic ++ be16 3000 ++ be16 2000 ++ [x0a; x0b; x0c].

(** A PNG cut short after its signature. *)
Definition cut_png : bytes := png_magic ++ [x0d].

End Sample.

(** ** Further relations and a second sample world *)

(** World [s] holds, under every id other than [id], the note that
    world [w] holds there. *)
Definition same_notes_except (id : string) (w s : World) : Prop :=
  forall id', id' <> id -> notes s !! id' = notes w !! id'.

Module Misconfigured.

(** The sample world with a negative [imageMaxWidthHeight]. *)
Definition world : World :=
  {| notes := notes Sample.world;
     noteRevisions := [];
     logLines := [];
     options := fun name =>
       if String.eqb name "imageMaxWidthHeight" then (-1)%Z else 75%Z;
     protectedSession := false;
     newEntityId := fun _ => "fresh1";
     idsDrawn := 0 |}.

End Misconfigured.

Module Lenient.

(** A decoder that does without a signature: it reads the size from
    the first four bytes and skips four more. *)
Definition decode (b : bytes) : result Image :=
  match b with
  | wh :: wl :: hh :: hl :: _ :: _ :: _ :: _ :: data =>
      inr {| bitmap_width := Sample.of_be16 wh wl;
             bitmap_height := Sample.of_be16 hh hl;
             bitmap_data := data; img_quality := 100; img_background := 0 |}
  | _ => inl (LibError "Error: unexpected end of file")
  end.

Definition libs : Libs :=
  {| isSvg := isSvg Sample.libs;
     imageType := imageType Sample.libs;
     isAnimated := isAnimated Sample.libs;
     sanitizeFilename := sanitizeFilename Sample.libs;
     jimp_read := decode;
     jimp_resample := jimp_resample Sample.libs;
     jimp_getBuffer_jpeg := jimp_getBuffer_jpeg Sample.libs |}.


End Lenient.

Module Fussy.

(** An animation check that cannot walk through a JPEG. *)
Definition walk (b : bytes) : result bool :=
  if Sample.starts_with Sample.jpg_magic b then
    inl (LibError "RangeError: Index out of range")
  else Sample.walk_chunks b.

Definition libs : Libs :=
  {| isSvg := isSvg Sample.libs;
     imageType := imageType Sample.libs;
     isAnimated := walk;
     sanitizeFilename := sanitizeFilename Sample.libs;
     jimp_read := jimp_read Sample.libs;
     jimp_resample := jimp_resample Sample.libs;
     jimp_getBuffer_jpeg := jimp_getBuffer_jpeg Sample.libs |}.

End Fussy.

(** * Properties *)

(** ** Strings *)

Lemma lower_ascii_idempotent (c : ascii) :
  lower_ascii (lower_ascii c) = lower_ascii c.
Proof.
  destruct c as [b0 b1 b2 b3 b4 b5 b6 b7].
  destruct b0, b1, b2, b3, b4, b5, b6, b7; reflexivity.
Qed.

Lemma toLowerCase_idempotent (s : string) :
  toLowerCase (toLowerCase s) = toLowerCase s.
Proof.
  induction s as [|c r IH]; simpl.
  - reflexivity.
  - rewrite lower_ascii_idempotent, IH. reflexivity.
Qed.

Lemma includes_spec (l : list string) (v : option string) :
  includes l v = true <-> exists e, v = Some e /\ e ∈ l.
Proof.
  destruct v as [s|]; simpl.
  - rewrite existsb_exists. split.
    + intros (x & Hx & Heq). apply String.eqb_eq in Heq. subst x.
      exists s. split; [reflexivity | now apply list_elem_of_In].
    + intros (e & [= <-] & He). exists s.
      split; [now apply list_elem_of_In | apply String.eqb_refl].
  - split; [discriminate | intros (e & He & _); discriminate].
Qed.

(** ** MIME derivation *)

(** C5, as stated, fails: on the extension ["SVG"] the code answers
    ["image/svg+xml"] where the rule of the specification gives
    ["image/svg"]. *)
Lemma mime_rule_differs_on_uppercase_svg :
  getImageMimeFromExtension (Some "SVG") <> inr (deriveMime_spec "SVG").
Proof. vm_compute. discriminate. Qed.

(** C5, amended: [getImageMimeFromExtension] lower-cases the extension
    first and applies the rule of the specification to the lower-cased
    text, so the comparison with ["svg"] ignores case; it agrees with
    the rule on the extension itself unless the extension is a spelling
    of ["svg"] with an upper-case letter. In particular ["svg"] gives
    ["image/svg+xml"] and ["PNG"] gives ["image/png"]. *)
Theorem mime_rule_after_lowering (ext : string) :
  getImageMimeFromExtension (Some ext) = inr (deriveMime_spec (toLowerCase ext))
  /\ ((toLowerCase ext = "svg" -> ext = "svg") ->
      getImageMimeFromExtension (Some ext) = inr (deriveMime_spec ext))
  /\ getImageMimeFromExtension (Some "svg") = inr "image/svg+xml"
  /\ getImageMimeFromExtension (Some "PNG") = inr "image/png".
Proof.
  assert (Hlow : getImageMimeFromExtension (Some ext)
                 = inr (deriveMime_spec (toLowerCase ext))).
  { unfold getImageMimeFromExtension, deriveMime_spec.
    rewrite toLowerCase_idempotent.
    destruct (String.eqb (toLowerCase ext) "svg"); reflexivity. }
  split; [exact Hlow |]. split; [| split; reflexivity].
  intros Honly. rewrite Hlow. unfold deriveMime_spec.
  rewrite toLowerCase_idempotent.
  destruct (String.eqb (toLowerCase ext) "svg") eqn:Hsvg.
  - apply String.eqb_eq in Hsvg. rewrite (Honly Hsvg). reflexivity.
  - destruct (String.eqb ext "svg") eqn:Hext; [| reflexivity].
    apply String.eqb_eq in Hext. subst ext. discriminate Hsvg.
Qed.

(** ** Format detection *)

Lemma getImageType_svg (L : Libs) (b : bytes) :
  isSvg L b = true -> getImageType L b = FormatObject "svg" None.
Proof. intros H. unfold getImageType. rewrite H. reflexivity. Qed.

Lemma getImageType_raster (L : Libs) (b : bytes) (t : FileType) :
  isSvg L b = false -> imageType L b = Some t ->
  get_ext (getImageType L b) = Some (ft_ext t).
Proof. intros H1 H2. unfold getImageType. rewrite H1, H2. reflexivity. Qed.

Lemma getImageType_without_signature (L : Libs) (b : bytes) :
  isSvg L b = false -> imageType L b = None ->
  getImageType L b = FormatString "jpg"
  /\ get_ext (getImageType L b) = None.
Proof.
  intros H1 H2. unfold getImageType. rewrite H1, H2. split; reflexivity.
Qed.

(** C1, where the code departs from it: on a buffer that is no SVG and
    has no raster signature [getImageType] returns the primitive string
    ["jpg"], not an object with an extension, and reading [ext] from it
    gives [undefined]. *)
Theorem getImageType_default_is_bare_string (L : Libs) (b : bytes) :
  isSvg L b = false -> imageType L b = None ->
  getImageType L b = FormatString "jpg"
  /\ get_ext (getImageType L b) = None.
Proof. apply getImageType_without_signature. Qed.

Lemma getImageType_default_is_bare_string_witness :
  getImageType Sample.libs Sample.noise = FormatString "jpg"
  /\ get_ext (getImageType Sample.libs Sample.noise) = None.
Proof.
  apply (getImageType_default_is_bare_string Sample.libs Sample.noise);
    reflexivity.
Defined.

(** ** The shrink policy *)

(** C3: the shrink decision is [false] whenever the extension of the
    detected format is one of webp, svg, gif, or the buffer is
    animated, whatever the caller asked for; otherwise it is what the
    caller asked for, unless [isAnimated] threw, and then the decision
    is never reached and what it threw goes on. *)
Theorem shrinkPolicy_decision (L : Libs) (requested : bool)
    (fmt : ImageFormat) (b : bytes) :
  let forced_off :=
    (exists e, get_ext fmt = Some e /\ e ∈ ["webp"; "svg"; "gif"])
    \/ isAnimated L b = inr true in
  (forced_off -> shrinkPolicy L requested fmt b = inr false)
  /\ (~ forced_off ->
      match isAnimated L b with
      | inr _ => shrinkPolicy L requested fmt b = inr requested
      | inl e => shrinkPolicy L requested fmt b = inl e
      end).
Proof.
  cbv zeta. unfold shrinkPolicy.
  assert (Htruthy : truthy fmt && includes ["webp"; "svg"; "gif"] (get_ext fmt)
                    = includes ["webp"; "svg"; "gif"] (get_ext fmt)).
  { destruct fmt; simpl; [reflexivity | apply andb_false_r]. }
  rewrite Htruthy.
  destruct (includes ["webp"; "svg"; "gif"] (get_ext fmt)) eqn:Hinc.
  - split; [reflexivity |]. intros Hno. exfalso. apply Hno. left.
    now apply includes_spec.
  - destruct (isAnimated L b) as [e | [|]] eqn:Hani.
    + split; [| reflexivity]. intros [Hext | Habs]; [| discriminate].
      apply includes_spec in Hext. congruence.
    + split; [reflexivity |]. intros Hno. exfalso. apply Hno. now right.
    + split; [| reflexivity]. intros [Hext | Habs]; [| discriminate].
      apply includes_spec in Hext. congruence.
Qed.

(** ** Computations that stay within a relation *)

Section Stays.
Context (R : World -> World -> Prop).
Context (R_refl : forall w, R w w).
Context (R_trans : forall a b c, R a b -> R b c -> R a c).

Lemma stays_ret {A} (a : A) : stays R (ret a).
Proof. intros w. split; [constructor | apply R_refl]. Qed.

Lemma stays_throw {A} (e : exn) : stays R (@throw A e).
Proof. intros w. split; [constructor | apply R_refl]. Qed.

Lemma stays_gets {A} (f : World -> A) : stays R (gets f).
Proof. intros w. split; [constructor | apply R_refl]. Qed.

Lemma stays_lift {A} (r : result A) : stays R (lift r).
Proof. destruct r; [apply stays_throw | apply stays_ret]. Qed.

Lemma stays_effect (f : World -> World) :
  (forall w, R w (f w)) -> stays R (effect f).
Proof.
  intros Hf w. simpl. split; [| apply Hf].
  constructor; [apply Hf | constructor].
Qed.

Lemma stays_bind {A B} (m : M A) (k : A -> M B) :
  stays R m -> (forall a, stays R (k a)) -> stays R (bind m k).
Proof.
  intros Hm Hk w. unfold bind. destruct (Hm w) as [Htr Hfin].
  destruct (m w) as [t w1 [e | a]]; simpl in *; [now split |].
  destruct (Hk a w1) as [Htr' Hfin'].
  destruct (k a w1) as [t' w2 v]; simpl in *.
  split.
  - apply Forall_app. split; [exact Htr |].
    eapply Forall_impl; [exact Htr' |]. intros s Hs. eauto.
  - eauto.
Qed.

Lemma stays_try_catch {A} (m : M A) (h : exn -> M A) :
  stays R m -> (forall e, stays R (h e)) -> stays R (try_catch m h).
Proof.
  intros Hm Hh w. unfold try_catch. destruct (Hm w) as [Htr Hfin].
  destruct (m w) as [t w1 [e | a]]; simpl in *; [| now split].
  destruct (Hh e w1) as [Htr' Hfin'].
  destruct (h e w1) as [t' w2 v]; simpl in *.
  split.
  - apply Forall_app. split; [exact Htr |].
    eapply Forall_impl; [exact Htr' |]. intros s Hs. eauto.
  - eauto.
Qed.

Lemma stays_transactional {A} (fn : M A) :
  (forall w s, R w s -> R w (rollback w s)) ->
  stays R fn -> stays R (transactional fn).
Proof.
  intros Hroll Hfn w. unfold transactional. destruct (Hfn w) as [Htr Hfin].
  destruct (fn w) as [t w1 [e | a]]; simpl in *; [| now split].
  split; [| now apply Hroll].
  apply Forall_app. split; [exact Htr |].
  constructor; [now apply Hroll | constructor].
Qed.

End Stays.

(** ** The resize step and its fallbacks *)

Lemma lift_run {A} (r : result A) (w : World) :
  lift r w = {| trace := []; final := w; value := r |}.
Proof. destruct r; reflexivity. Qed.

(** [resize] reads an option and calls the codec: it writes nothing. *)
Lemma resize_writes_nothing (L : Libs) (b : bytes) (q : Z) (w : World) :
  trace (resize L b q w) = [] /\ final (resize L b q w) = w.
Proof.
  unfold resize, getOptionInt, bind, gets, lift, ret, throw.
  destruct (jimp_read L b) as [e | image]; [now split |].
  destruct (resize_geometry L image _) as [e | image1]; [now split |].
  destruct (Jimp.quality image1 q) as [e | image2]; [now split |].
  destruct (jimp_getBuffer_jpeg L _); now split.
Qed.

(** What [shrinkImage] does, by the outcome of [resize]. *)
Lemma shrinkImage_run (L : Libs) (b : bytes) (name : string) (w : World) :
  shrinkImage L b name w =
  match value (resize L b (options w "imageJpegQuality") w) with
  | inr resized =>
      {| trace := []; final := w;
         value := inr (if (length b <=? length resized)%nat then b else resized) |}
  | inl e =>
      let w' := with_logLines (fun l => l ++ [resize_failure_line name e]) w in
      {| trace := [w']; final := w'; value := inr b |}
  end.
Proof.
  destruct (resize_writes_nothing L b (options w "imageJpegQuality") w) as [Htr Hfin].
  unfold shrinkImage, getOptionInt, bind, try_catch, gets, log_error, effect, ret.
  destruct (resize L b (options w "imageJpegQuality") w) as [tr fin [e | resized]];
    simpl in *; subst tr fin.
  - rewrite Nat.leb_refl. reflexivity.
  - reflexivity.
Qed.

Lemma shrinkImage_returns (L : Libs) (b : bytes) (name : string) (w : World) :
  exists out, value (shrinkImage L b name w) = inr out
              /\ (length out <= length b)%nat.
Proof.
  rewrite shrinkImage_run.
  destruct (value (resize L b _ w)) as [e | resized]; simpl.
  - exists b. split; [reflexivity | lia].
  - destruct (length b <=? length resized)%nat eqn:Hcmp.
    + exists b. split; [reflexivity | lia].
    + exists resized. split; [reflexivity |].
      apply Nat.leb_gt in Hcmp. lia.
Qed.

(** [processImage] in terms of the policy decision. *)
Lemma processImage_run (L : Libs) (b : bytes) (name : string)
    (requested : bool) (w : World) :
  processImage L b name requested w =
  match shrinkPolicy L requested (getImageType L b) b with
  | inl e => {| trace := []; final := w; value := inl e |}
  | inr true =>
      let o := shrinkImage L b name w in
      match value o with
      | inr out =>
          {| trace := trace o; final := final o;
             value := inr {| buffer := out; imageFormat := getImageType L out |} |}
      | inl e => {| trace := trace o; final := final o; value := inl e |}
      end
  | inr false =>
      {| trace := []; final := w;
         value := inr {| buffer := b; imageFormat := getImageType L b |} |}
  end.
Proof.
  unfold processImage, lift.
  destruct (shrinkPolicy L requested (getImageType L b) b) as [e | [|]];
    unfold bind, ret, throw; [reflexivity | | reflexivity].
  destruct (shrinkImage L b name w) as [tr fin [e | out]];
    cbn [value final trace app]; [reflexivity |].
  rewrite app_nil_r. reflexivity.
Qed.

(** The flag does not bear on whether the policy throws, and a policy
    that lets the shrink through was asked to. *)
Lemma shrinkPolicy_flag (L : Libs) (requested : bool) (fmt : ImageFormat)
    (b : bytes) :
  match shrinkPolicy L requested fmt b with
  | inl e => forall requested', shrinkPolicy L requested' fmt b = inl e
  | inr applied =>
      shrinkPolicy L false fmt b = inr false
      /\ (applied = true -> requested = true)
  end.
Proof.
  unfold shrinkPolicy.
  destruct (truthy fmt && includes _ (get_ext fmt));
    [split; [reflexivity | discriminate] |].
  destruct (isAnimated L b) as [e | [|]];
    [reflexivity | split; [reflexivity | discriminate] |].
  split; [reflexivity | auto].
Qed.


(** C2: [processImage] fulfils unless [isAnimated] throws at the
    policy, in which case its promise rejects with what was thrown and
    no buffer is returned. Whenever it fulfils, the buffer it returns
    is never longer than the uploaded one, and it is the uploaded
    buffer itself whenever the shrink is not applied, the caller not
    having asked for it or the policy having switched it off. *)
Theorem processImage_never_grows (L : Libs) (b : bytes) (name : string)
    (requested : bool) (w : World) :
  match shrinkPolicy L requested (getImageType L b) b with
  | inl e => value (processImage L b name requested w) = inl e
  | inr applied =>
      exists r,
        value (processImage L b name requested w) = inr r
        /\ (length (buffer r) <= length b)%nat
        /\ (applied = false -> buffer r = b)
        /\ (requested = false -> buffer r = b)
  end.
Proof.
  rewrite processImage_run.
  pose proof (shrinkPolicy_flag L requested (getImageType L b) b) as Hflag.
  destruct (shrinkPolicy L requested (getImageType L b) b) as [e | [|]].
  - reflexivity.
  - destruct Hflag as [_ Hreq].
    destruct (shrinkImage_returns L b name w) as (out & Hout & Hlen).
    cbv zeta. rewrite Hout. eexists. split; [reflexivity |]. simpl.
    split; [exact Hlen |]. split; [discriminate |].
    intros ->. now specialize (Hreq eq_refl).
  - eexists. split; [reflexivity |]. simpl. split; [lia |]. now split.
Qed.

(** C7: when [resize] throws, whatever it throws, [shrinkImage] logs
    the failure with the original file name and returns the buffer it
    was given; [processImage] then fulfils with the uploaded bytes, so
    nothing reaches its caller. *)
Theorem shrinkImage_recovers_from_failure (L : Libs) (b : bytes)
    (name : string) (w : World) (e : exn) :
  value (resize L b (options w "imageJpegQuality") w) = inl e ->
  let line := LogError ("Failed to resize image '" +:+ name +:+ "'"
                        +:+ newline +:+ "Stack: " +:+ exn_stack e) in
  value (shrinkImage L b name w) = inr b
  /\ logLines (final (shrinkImage L b name w)) = logLines w ++ [line]
  /\ forall requested,
       shrinkPolicy L requested (getImageType L b) b = inr true ->
       value (processImage L b name requested w)
         = inr {| buffer := b; imageFormat := getImageType L b |}
       /\ logLines (final (processImage L b name requested w))
          = logLines w ++ [line].
Proof.
  intros Hfail line.
  assert (Hrun : shrinkImage L b name w =
                 let w' := with_logLines (fun l => l ++ [line]) w in
                 {| trace := [w']; final := w'; value := inr b |}).
  { rewrite shrinkImage_run, Hfail. reflexivity. }
  split; [now rewrite Hrun |]. split; [now rewrite Hrun |].
  intros requested Hpol. rewrite processImage_run, Hpol, Hrun.
  split; reflexivity.
Qed.

Lemma shrinkImage_recovers_from_failure_witness :
  value (shrinkImage Sample.libs Sample.noise "a.png" Sample.world)
    = inr Sample.noise
  /\ logLines (final (shrinkImage Sample.libs Sample.noise "a.png" Sample.world))
     = [LogError ("Failed to resize image 'a.png'" +:+ newline
                  +:+ "Stack: Error: Could not find MIME for Buffer <null>")].
Proof.
  destruct (shrinkImage_recovers_from_failure Sample.libs Sample.noise "a.png"
              Sample.world
              (LibError "Error: Could not find MIME for Buffer <null>")
              eq_refl) as (Hval & Hlog & _).
  split; [exact Hval | exact Hlog].
Defined.




(** ** The geometry of [resize] *)

Section Geometry.
Local Open Scope Z_scope.






(** When [imageMaxWidthHeight] is negative [jimp] refuses the sizes
    asked for, whichever side was to be bound. *)
Lemma resize_geometry_negative_bound (L : Libs) (image : Image) (bound : Z) :
  0 < bitmap_width image -> 0 < bitmap_height image -> bound < 0 ->
  exists e, resize_geometry L image bound = inl e.
Proof.
  intros Hw Hh Hbound. unfold resize_geometry, Jimp.resize.
  rewrite Z.eqb_refl.
  replace (bitmap_height image >? bound) with true
    by (symmetry; apply Z.gtb_lt; lia).
  replace (bitmap_width image >? bound) with true
    by (symmetry; apply Z.gtb_lt; lia).
  rewrite andb_true_r, andb_true_l.
  assert (Hneg : Jimp.negative (Jimp.Given bound) = true)
    by (apply Z.ltb_lt; lia).
  destruct (bound =? Jimp.AUTO).
  - destruct (bitmap_width image >? bitmap_height image); eauto.
  - cbv zeta. rewrite Hneg, orb_true_r. cbn [orb].
    destruct (bitmap_width image >? bitmap_height image); eauto.
Qed.

End Geometry.

(** ** The entry points *)

Ltac run :=
  cbn [value trace final notes noteRevisions logLines options protectedSession
       newEntityId idsDrawn with_notes with_noteRevisions with_logLines
       with_idsDrawn rollback fst snd app
       cfg_parentNoteId cfg_title cfg_type cfg_mime cfg_content cfg_isProtected].

Ltac open_services :=
  unfold note_setLabel, note_addLabel, note_set_mime, note_save, note_setContent;
  unfold createNoteRevision, protectNoteRevisions, update_note, createNewNote;
  unfold log_info, log_error, getNote, deref, get_noteId, getOptionInt,
    isProtectedSessionAvailable, bind, ret, throw, gets, effect.

Lemma saveImage_run (L : Libs) (w : World) (parentId : string) (parent : Note)
    (b : bytes) (name : string) (requested : bool) :
  notes w !! parentId = Some parent ->
  let id := newEntityId w (idsDrawn w) in
  let fileName := sanitizeFilename L name in
  let created :=
    {| parentNoteId := parentId; title := fileName; noteType := "image";
       mime := "unknown"; content := [];
       isProtected := isProtected parent && protectedSession w;
       labels := [] |} in
  let labelled :=
    note_with_labels (fun l => l ++ [("originalFileName", name)]) created in
  let w1 := with_logLines (fun l => l ++ [LogInfo ("Saving image " +:+ name)]) w in
  let w2 := with_idsDrawn (N.succ (idsDrawn w)) (with_notes (<[id := created]>) w1) in
  let w3 := with_notes (<[id := labelled]>) w2 in
  saveImage L parentId b name requested w =
  {| trace := [w1; w2; w3]; final := w3;
     value := inr ({| res_fileName := fileName; res_note := Some id;
                      res_noteId := id;
                      res_url := "api/images/" +:+ id +:+ "/" +:+ fileName |},
                   detached L (Some id) b name requested) |}.
Proof.
  intros Hparent. cbv zeta.
  unfold saveImage. open_services. run.
  repeat (rewrite Hparent; run).
  destruct (isProtected parent); run.
  all: rewrite lookup_insert_eq; reflexivity.
Qed.

(** C9: with the parent note in [becca], [saveImage] returns, the
    promise chain it started not having run yet, the sanitized file
    name, the id of the note it created and the url
    [api/images/{noteId}/{fileName}]; at that point the note is a child
    of the parent, of MIME ["unknown"], with empty content, protected
    exactly when the parent is protected and a protected session is
    active, and carries the original file name as a label. *)
Theorem saveImage_returns_placeholder (L : Libs) (w : World)
    (parentId : string) (parent : Note) (b : bytes) (name : string)
    (requested : bool) :
  notes w !! parentId = Some parent ->
  let o := saveImage L parentId b name requested w in
  let id := newEntityId w (idsDrawn w) in
  let fileName := sanitizeFilename L name in
  value o = inr ({| res_fileName := fileName; res_note := Some id;
                    res_noteId := id;
                    res_url := "api/images/" +:+ id +:+ "/" +:+ fileName |},
                 detached L (Some id) b name requested)
  /\ exists n,
       notes (final o) !! id = Some n
       /\ parentNoteId n = parentId
       /\ mime n = "unknown"
       /\ content n = []
       /\ isProtected n = isProtected parent && protectedSession w
       /\ labels n = [("originalFileName", name)].
Proof.
  intros Hparent o id fileName. subst o.
  rewrite (saveImage_run L w parentId parent b name requested Hparent).
  split; [reflexivity |]. run.
  eexists. split; [apply lookup_insert_eq |].
  repeat split; reflexivity.
Qed.

Lemma saveImage_returns_placeholder_witness :
  exists job,
    value (saveImage Sample.libs "root" Sample.big_png "dir/a.png" true Sample.world)
    = inr ({| res_fileName := "dira.png"; res_note := Some "fresh1";
              res_noteId := "fresh1";
              res_url := "api/images/fresh1/dira.png" |}, job).
Proof.
  destruct (saveImage_returns_placeholder Sample.libs Sample.world "root"
              Sample.folder Sample.big_png "dir/a.png" true eq_refl)
    as [Hvalue _].
  eexists. exact Hvalue.
Defined.

(** ** The promise chain *)

Lemma same_revisions_refl (w : World) : same_revisions w w.
Proof. reflexivity. Qed.

Lemma same_revisions_trans (a b c : World) :
  same_revisions a b -> same_revisions b c -> same_revisions a c.
Proof. unfold same_revisions. congruence. Qed.

Lemma same_store_refl (w : World) : same_store w w.
Proof. split; reflexivity. Qed.

Lemma same_store_trans (a b c : World) :
  same_store a b -> same_store b c -> same_store a c.
Proof. unfold same_store. intros [] []. split; congruence. Qed.

Ltac stays_steps Hrefl Htrans leaf :=
  repeat first
    [ leaf
    | apply stays_ret; apply Hrefl
    | apply stays_throw; apply Hrefl
    | apply stays_gets; apply Hrefl
    | apply stays_lift; apply Hrefl
    | apply stays_bind; [apply Htrans | | intros ?]
    | apply stays_try_catch; [apply Htrans | | intros ?] ].

Lemma log_error_same_store (message : string) :
  stays same_store (log_error message).
Proof.
  apply stays_effect. intros w. split; reflexivity.
Qed.

Lemma processImage_same_store (L : Libs) (b : bytes) (name : string)
    (requested : bool) :
  stays same_store (processImage L b name requested).
Proof.
  unfold processImage.
  apply stays_bind; [apply same_store_trans | |].
  { apply stays_lift, same_store_refl. }
  intros [|]; unfold shrinkImage, resize, getOptionInt;
    stays_steps same_store_refl same_store_trans
      ltac:(apply log_error_same_store).
Qed.

Lemma deref_stays (R : World -> World -> Prop) (note : option string) :
  (forall w, R w w) -> (forall a b c, R a b -> R b c -> R a c) ->
  stays R (deref note).
Proof.
  intros Hrefl Htrans. unfold deref. destruct note as [id |].
  - apply stays_bind; [assumption .. | apply stays_gets; assumption |].
    intros [n |]; [apply stays_ret | apply stays_throw]; assumption.
  - apply stays_throw; assumption.
Qed.

Lemma get_noteId_stays (R : World -> World -> Prop) (note : option string) :
  (forall w, R w w) -> stays R (get_noteId note).
Proof.
  intros Hrefl. unfold get_noteId.
  destruct note; [apply stays_ret | apply stays_throw]; assumption.
Qed.

Lemma update_note_same_revisions (f : Note -> Note) (note : option string) :
  stays same_revisions (update_note f note).
Proof.
  unfold update_note.
  apply stays_bind; [apply same_revisions_trans | |].
  { apply deref_stays; [apply same_revisions_refl | apply same_revisions_trans]. }
  intros n. apply stays_bind; [apply same_revisions_trans | |].
  { apply get_noteId_stays, same_revisions_refl. }
  intros id. apply stays_effect. intros w. reflexivity.
Qed.

Lemma same_store_revisions {A} (m : M A) :
  stays same_store m -> stays same_revisions m.
Proof.
  intros Hm w. destruct (Hm w) as [Htr [_ Hfin]]. split; [| exact Hfin].
  eapply Forall_impl; [exact Htr |]. now intros s [_ Hs].
Qed.

Lemma commit_same_revisions (note : option string) (r : ProcessedAsset) :
  stays same_revisions (commit note r).
Proof.
  unfold commit, note_set_mime, note_save, note_setContent.
  apply stays_transactional; [reflexivity |].
  stays_steps same_revisions_refl same_revisions_trans
    ltac:(apply update_note_same_revisions).
Qed.

(** The promise chain never touches the revisions on record. *)
Lemma detached_same_revisions (L : Libs) (note : option string) (b : bytes)
    (name : string) (requested : bool) :
  stays same_revisions (detached L note b name requested).
Proof.
  unfold detached. apply stays_bind; [apply same_revisions_trans | |].
  - apply same_store_revisions, processImage_same_store.
  - intros r. apply commit_same_revisions.
Qed.

Lemma resize_decode_failure (L : Libs) (b : bytes) (q : Z) (w : World) (e : exn) :
  jimp_read L b = inl e -> value (resize L b q w) = inl e.
Proof.
  intros Hread. unfold resize, getOptionInt, bind, gets, lift, throw.
  rewrite Hread. reflexivity.
Qed.

Lemma processImage_keeps_undecodable (L : Libs) (b : bytes) (name : string)
    (requested : bool) (w : World) :
  shrinkPolicy L requested (getImageType L b) b = inr false
  \/ (shrinkPolicy L requested (getImageType L b) b = inr true
      /\ exists e, jimp_read L b = inl e) ->
  value (processImage L b name requested w)
  = inr {| buffer := b; imageFormat := getImageType L b |}.
Proof.
  intros Hcase. rewrite processImage_run.
  destruct Hcase as [-> | [-> [e Hread]]]; [reflexivity |].
  rewrite shrinkImage_run.
  rewrite (resize_decode_failure L b _ w e Hread). reflexivity.
Qed.


Lemma resize_value_options (L : Libs) (b : bytes) (q : Z) (w w' : World) :
  options w = options w' ->
  value (resize L b q w) = value (resize L b q w').
Proof.
  intros Hopt. unfold resize, getOptionInt, bind, gets, lift, ret, throw.
  rewrite Hopt.
  destruct (jimp_read L b) as [e | image]; [reflexivity |].
  destruct (resize_geometry L image _) as [e | image1]; [reflexivity |].
  destruct (Jimp.quality image1 q) as [e | image2]; [reflexivity |].
  destruct (jimp_getBuffer_jpeg L _); reflexivity.
Qed.

(** What [processImage] returns depends on the world through the
    options alone. *)
Lemma processImage_value_options (L : Libs) (b : bytes) (name : string)
    (requested : bool) (w w' : World) :
  options w = options w' ->
  value (processImage L b name requested w)
  = value (processImage L b name requested w').
Proof.
  intros Hopt. rewrite !processImage_run.
  destruct (shrinkPolicy L requested (getImageType L b) b) as [e | [|]];
    [reflexivity | | reflexivity].
  rewrite !shrinkImage_run, <- Hopt.
  rewrite (resize_value_options L b _ w w' Hopt).
  destruct (value (resize L b _ w')); reflexivity.
Qed.

(** When the format [processImage] returns has no [ext], the promise
    chain rejects at [toLowerCase] before the commit has written
    anything. *)
Lemma detached_on_bare_string (L : Libs) (note : option string) (b : bytes)
    (name : string) (requested : bool) (w : World) (r : ProcessedAsset) :
  value (processImage L b name requested w) = inr r ->
  get_ext (imageFormat r) = None ->
  value (detached L note b name requested w)
    = inl (TypeError "Cannot read property 'toLowerCase' of undefined")
  /\ Forall (same_store w) (trace (detached L note b name requested w))
  /\ same_store w (final (detached L note b name requested w)).
Proof.
  intros Hval Hext.
  destruct (processImage_same_store L b name requested w) as [Htr Hfin].
  unfold detached, bind.
  destruct (processImage L b name requested w) as [t w1 v].
  simpl in Hval, Htr, Hfin. subst v.
  unfold commit, transactional, bind, lift, throw. rewrite Hext. simpl.
  assert (Hroll : same_store w (rollback w1 w1)).
  { destruct Hfin as [Hn Hr]. split; simpl; assumption. }
  split; [reflexivity |]. split; [| exact Hroll].
  apply Forall_app. split; [exact Htr |].
  constructor; [exact Hroll | constructor].
Qed.





(** ** The update path *)

Lemma has_snapshot_same_revisions (w s : World) (id : string) (c : bytes) :
  same_revisions w s -> has_snapshot w id c -> has_snapshot s id c.
Proof.
  unfold same_revisions, has_snapshot. intros ->. auto.
Qed.

Lemma has_snapshot_protect (w : World) (id id' : string) (c : bytes) :
  has_snapshot w id c ->
  has_snapshot (with_noteRevisions (map (protect_revision id')) w) id c.
Proof.
  intros (r & Hin & Hid & Hc). exists (protect_revision id' r).
  split; [simpl; now apply list_elem_of_In, in_map, list_elem_of_In |].
  unfold protect_revision. destruct (String.eqb (rev_noteId r) id'); auto.
Qed.

Lemma updateImage_run (L : Libs) (w : World) (id : string) (n : Note)
    (b : bytes) (name : string) :
  notes w !! id = Some n ->
  let w1 := with_logLines
              (fun l => l ++ [LogInfo ("Updating image " +:+ id +:+ ": " +:+ name)]) w in
  let w2 := with_noteRevisions (fun l => l ++ [snapshot_of id n]) w1 in
  let w3 := if isProtected n
            then with_noteRevisions (map (protect_revision id)) w2 else w2 in
  let w4 := with_notes
              (<[id := note_with_labels (set_label "originalFileName" name) n]>) w3 in
  updateImage L id b name w =
  {| trace := [w1; w2] ++ (if isProtected n then [w3] else []) ++ [w4];
     final := w4;
     value := inr (detached L (Some id) b name true) |}.
Proof.
  intros Hnote. cbv zeta.
  unfold updateImage. open_services. run.
  repeat (rewrite Hnote; run).
  destruct (isProtected n); run; repeat (rewrite Hnote; run); reflexivity.
Qed.

Lemma updateImage_missing (L : Libs) (w : World) (id : string)
    (b : bytes) (name : string) :
  notes w !! id = None ->
  let w1 := with_logLines
              (fun l => l ++ [LogInfo ("Updating image " +:+ id +:+ ": " +:+ name)]) w in
  updateImage L id b name w =
  {| trace := [w1]; final := w1;
     value := inl (TypeError "Cannot read properties of undefined") |}.
Proof.
  intros Hnote. cbv zeta.
  unfold updateImage. open_services. run.
  repeat (rewrite Hnote; run). reflexivity.
Qed.

(** C6: in every world [updateImage] and the promise chain it starts
    pass through, either the content of the note is still what it was
    when [updateImage] was called, or a revision holding that content
    is on record; when the note exists the revision is on record by
    the time [updateImage] returns, before the promise chain runs; and
    from whatever later world the chain runs, a revision on record
    there stays on record throughout. *)
Theorem updateImage_snapshot_before_content (L : Libs) (w : World)
    (id : string) (b : bytes) (name : string) :
  Forall
    (fun s =>
       content <$> notes s !! id = content <$> notes w !! id
       \/ exists n, notes w !! id = Some n /\ has_snapshot s id (content n))
    (reachable (updateImage_settled L id b name) w)
  /\ forall n, notes w !! id = Some n ->
       value (updateImage L id b name w) = inr (detached L (Some id) b name true)
       /\ has_snapshot (final (updateImage L id b name w)) id (content n)
       /\ forall later,
            has_snapshot later id (content n) ->
            Forall (fun s => has_snapshot s id (content n))
              (reachable (detached L (Some id) b name true) later).
Proof.
  assert (Hlater : forall c later,
             has_snapshot later id c ->
             Forall (fun s => has_snapshot s id c)
               (reachable (detached L (Some id) b name true) later)).
  { intros c later Hsnap. unfold reachable.
    destruct (detached_same_revisions L (Some id) b name true later) as [Htr _].
    constructor; [exact Hsnap |].
    eapply Forall_impl; [exact Htr |]. intros s Hs.
    now apply (has_snapshot_same_revisions later). }
  unfold reachable, updateImage_settled.
  destruct (notes w !! id) as [n |] eqn:Hnote.
  - pose proof (updateImage_run L w id n b name Hnote) as Hrun.
    cbv zeta in Hrun.
    set (w1 := with_logLines _ w) in Hrun.
    set (w2 := with_noteRevisions _ w1) in Hrun.
    set (w3 := if isProtected n then _ else w2) in Hrun.
    set (w4 := with_notes _ w3) in Hrun.
    assert (H2 : has_snapshot w2 id (content n)).
    { exists (snapshot_of id n). split; [| now split].
      subst w2. simpl. apply elem_of_app. right. now left. }
    assert (H3 : has_snapshot w3 id (content n)).
    { subst w3. destruct (isProtected n); [| exact H2].
      now apply has_snapshot_protect. }
    assert (H4 : has_snapshot w4 id (content n)) by exact H3.
    split.
    + unfold bind. rewrite Hrun.
      destruct (detached_same_revisions L (Some id) b name true w4) as [Htr _].
      destruct (detached L (Some id) b name true w4) as [t wf v].
      simpl in Htr. simpl.
      constructor; [left; now rewrite Hnote |].
      constructor; [left; subst w1; simpl; now rewrite Hnote |].
      constructor; [right; eauto |].
      rewrite <- app_assoc. apply Forall_app. split.
      { destruct (isProtected n); constructor; [right; eauto | constructor]. }
      constructor; [right; eauto |].
      eapply Forall_impl; [exact Htr |]. intros s Hs. right.
      exists n. split; [reflexivity |].
      now apply (has_snapshot_same_revisions w4).
    + intros n' [= <-]. rewrite Hrun. split; [reflexivity |].
      split; [exact H4 | apply Hlater].
  - pose proof (updateImage_missing L w id b name Hnote) as Hrun.
    cbv zeta in Hrun. split; [| discriminate].
    unfold bind. rewrite Hrun. simpl.
    constructor; [left; now rewrite Hnote |].
    constructor; [left; run; now rewrite Hnote | constructor].
Qed.

(** ** The pipeline on the sample buffers *)

(** A 3000 by 2000 image under the bound 1000 is re-encoded at 1000 by
    667 and detected as ["jpg"]. *)
Example processImage_big_png :
  value (processImage Sample.libs Sample.big_png "a.png" true Sample.world)
  = inr {| buffer := Sample.jpg_magic ++ Sample.be16 1000 ++ Sample.be16 667
                     ++ [x0a; x0b; x0c];
           imageFormat := FormatObject "jpg" (Some "image/jpeg") |}.
Proof. reflexivity. Qed.

(** A GIF is never shrunk. *)
Example processImage_gif :
  processImage Sample.libs (Sample.gif_magic ++ [x38; x39; x61]) "a.gif" true
    Sample.world
  = {| trace := []; final := Sample.world;
       value := inr {| buffer := Sample.gif_magic ++ [x38; x39; x61];
                       imageFormat := FormatObject "gif" (Some "image/gif") |} |}.
Proof. reflexivity. Qed.

(** [saveImage] and its promise chain on the 3000 by 2000 image: the
    note ends with the MIME and the bytes of the re-encoded image. *)
Example saveImage_big_png_settled :
  let o := then_settle (saveImage Sample.libs "root" Sample.big_png "a.png" true)
             Sample.world in
  (mime <$> notes (final o) !! "fresh1") = Some "image/jpg"
  /\ (content <$> notes (final o) !! "fresh1")
     = Some (Sample.jpg_magic ++ Sample.be16 1000 ++ Sample.be16 667
             ++ [x0a; x0b; x0c]).
Proof. split; vm_compute; reflexivity. Qed.

(** [updateImage] and its promise chain on the sample picture: the
    revision holds the old content, the note the new one. *)
Example updateImage_big_png_settled :
  let o := updateImage_settled Sample.libs "img1" Sample.big_png "a.png"
             Sample.world in
  map rev_content (noteRevisions (final o)) = [content Sample.picture]
  /\ (content <$> notes (final o) !! "img1")
     = Some (Sample.jpg_magic ++ Sample.be16 1000 ++ Sample.be16 667
             ++ [x0a; x0b; x0c]).
Proof. split; vm_compute; reflexivity. Qed.

(** * Further properties *)

(** A PNG cut short makes the animation check throw, and with it
    [processImage] rejects. *)
Example processImage_cut_png :
  value (processImage Sample.libs Sample.cut_png "a.png" true Sample.world)
  = inl (LibError "RangeError: Index out of range").
Proof. reflexivity. Qed.

(** 1216 by 76 under 1000: the height is 76 * (1000 / 1216) in binary64,
    just under 62.5, and rounds to 62. *)
Example resize_1216_by_76 :
  exists image',
    Jimp.resize Sample.libs
      {| bitmap_width := 1216; bitmap_height := 76; bitmap_data := [];
         img_quality := 100; img_background := 0 |} 1000 Jimp.AUTO
    = inr image'
    /\ bitmap_width image' = 1000%Z /\ bitmap_height image' = 62%Z.
Proof. eexists. split; [reflexivity |]. split; reflexivity. Qed.

(** 3000 by 1 under 1000: the height rounds to 0 and the resizer
    refuses it; so it does a bound of 0. *)
Example resize_to_nothing :
  resize_geometry Sample.libs
    {| bitmap_width := 3000; bitmap_height := 1; bitmap_data := [];
       img_quality := 100; img_background := 0 |} 1000
  = inl (LibError "Invalid settings specified for the resizer.")
  /\ resize_geometry Sample.libs
       {| bitmap_width := 3000; bitmap_height := 2000; bitmap_data := [];
          img_quality := 100; img_background := 0 |} 0
     = inl (LibError "Invalid settings specified for the resizer.").
Proof. split; vm_compute; reflexivity. Qed.

(** ** MIME derivation and the pipeline *)

Lemma toLowerCase_append (a b : string) :
  toLowerCase (a +:+ b) = toLowerCase a +:+ toLowerCase b.
Proof.
  induction a as [| c r IH]; simpl; [reflexivity | now rewrite IH].
Qed.

(** X1: on a string [getImageMimeFromExtension] never throws and does
    not tell the case of the letters of the extension apart; what it
    returns begins with ["image/"] and is in lower case. *)
Theorem mime_ignores_case (ext : string) :
  getImageMimeFromExtension (Some ext)
  = getImageMimeFromExtension (Some (toLowerCase ext))
  /\ exists rest,
       getImageMimeFromExtension (Some ext) = inr ("image/" +:+ rest)
       /\ toLowerCase ("image/" +:+ rest) = "image/" +:+ rest.
Proof.
  unfold getImageMimeFromExtension. rewrite toLowerCase_idempotent.
  split; [reflexivity |].
  eexists. split; [reflexivity |].
  rewrite toLowerCase_append.
  destruct (String.eqb (toLowerCase ext) "svg"); [reflexivity |].
  now rewrite toLowerCase_idempotent.
Qed.

(** X2: [processImage] rejects exactly when [isAnimated] throws at
    the policy, with what was thrown. Otherwise it fulfils, and the
    buffer it returns is the uploaded buffer itself, or else it is
    what [resize] produced, strictly shorter than the upload, the
    caller having asked for the shrink and the policy having let it
    through; the format returned is always the one detected on the
    returned bytes. *)
Theorem processImage_outcome (L : Libs) (b : bytes) (name : string)
    (requested : bool) (w : World) :
  match shrinkPolicy L requested (getImageType L b) b with
  | inl e => value (processImage L b name requested w) = inl e
  | inr applied =>
      exists r,
        value (processImage L b name requested w) = inr r
        /\ imageFormat r = getImageType L (buffer r)
        /\ (buffer r = b
            \/ (requested = true /\ applied = true
                /\ value (resize L b (options w "imageJpegQuality") w)
                   = inr (buffer r)
                /\ (length (buffer r) < length b)%nat))
  end.
Proof.
  rewrite processImage_run.
  pose proof (shrinkPolicy_flag L requested (getImageType L b) b) as Hflag.
  destruct (shrinkPolicy L requested (getImageType L b) b) as [e | [|]].
  - reflexivity.
  - destruct Hflag as [_ Hreq]. specialize (Hreq eq_refl).
    rewrite shrinkImage_run.
    destruct (value (resize L b (options w "imageJpegQuality") w))
      as [e | resized] eqn:Hres; cbn [value trace final].
    + eexists. split; [reflexivity |]. split; [reflexivity | now left].
    + destruct (length b <=? length resized)%nat eqn:Hcmp.
      * eexists. split; [reflexivity |]. split; [reflexivity | now left].
      * eexists. split; [reflexivity |]. split; [reflexivity |]. right.
        apply Nat.leb_gt in Hcmp. cbn [buffer]. auto.
  - eexists. split; [reflexivity |]. split; [reflexivity | now left].
Qed.

(** X3: [processImage] writes nothing but, at most, one line of the
    error log, and it writes that line exactly when the shrink was let
    through and [resize] threw; notes, revisions, options and the id
    generator are as they were. *)
Theorem processImage_writes_only_the_log (L : Libs) (b : bytes)
    (name : string) (requested : bool) (w : World) :
  let o := processImage L b name requested w in
  let resized := value (resize L b (options w "imageJpegQuality") w) in
  let applied := shrinkPolicy L requested (getImageType L b) b in
  (trace o = [] /\ final o = w
   /\ (applied = inr false \/ (exists e, applied = inl e)
       \/ exists out, resized = inr out))
  \/ (exists e,
        applied = inr true /\ resized = inl e
        /\ trace o = [final o]
        /\ final o = with_logLines (fun l => l ++ [resize_failure_line name e]) w).
Proof.
  cbv zeta. rewrite processImage_run.
  destruct (shrinkPolicy L requested (getImageType L b) b) as [e | [|]] eqn:Hpol.
  - left. eauto 6.
  - rewrite shrinkImage_run.
    destruct (value (resize L b (options w "imageJpegQuality") w))
      as [e | out]; cbn [value trace final].
    + right. exists e. auto.
    + left. split; [reflexivity |]. split; [reflexivity |]. right. right. eauto.
  - left. auto.
Qed.

(** X14: an upload whose detected extension is webp, svg or gif, or
    that is animated, goes through [processImage] untouched whatever
    the caller asked for: the same bytes, the format detected on them,
    and no write at all. *)
Theorem processImage_passes_through (L : Libs) (b : bytes) (name : string)
    (requested : bool) (w : World) :
  (exists e, get_ext (getImageType L b) = Some e /\ e ∈ ["webp"; "svg"; "gif"])
  \/ isAnimated L b = inr true ->
  processImage L b name requested w
  = {| trace := []; final := w;
       value := inr {| buffer := b; imageFormat := getImageType L b |} |}.
Proof.
  intros Hforced. rewrite processImage_run.
  replace (shrinkPolicy L requested (getImageType L b) b)
    with (@inr exn bool false); [reflexivity |].
  symmetry. unfold shrinkPolicy.
  destruct Hforced as [Hext | Hani].
  - apply includes_spec in Hext. rewrite Hext.
    destruct (getImageType L b); [reflexivity | discriminate].
  - rewrite Hani.
    destruct (truthy _ && includes _ _); reflexivity.
Qed.

Lemma processImage_passes_through_witness :
  processImage Sample.libs (Sample.gif_magic ++ [x38; x39; x61]) "a.gif" true
    Sample.world
  = {| trace := []; final := Sample.world;
       value := inr {| buffer := Sample.gif_magic ++ [x38; x39; x61];
                       imageFormat := FormatObject "gif" (Some "image/gif") |} |}.
Proof.
  apply (processImage_passes_through Sample.libs
           (Sample.gif_magic ++ [x38; x39; x61]) "a.gif" true Sample.world).
  left. exists "gif". split; [reflexivity |].
  apply list_elem_of_In. simpl. auto.
Defined.

(** ** The resize step at its edges *)

Section ResizeEdges.
Local Open Scope Z_scope.

(** X5: a negative [imageMaxWidthHeight], or an [imageJpegQuality]
    outside 0..100, makes [resize] throw on every buffer ([jimp]
    rejects the arguments, given that decoded images have positive
    sides); [shrinkImage] catches it, so [processImage], when the
    policy does not throw, returns the upload byte for byte: nothing is
    shrunk any more. *)
Theorem misconfigured_options_disable_shrink (L : Libs) (b : bytes)
    (name : string) (requested : bool) (w : World) :
  let bound := options w "imageMaxWidthHeight" in
  let quality := options w "imageJpegQuality" in
  (quality < 0 \/ 100 < quality
   \/ (bound < 0
       /\ forall image, jimp_read L b = inr image ->
            0 < bitmap_width image /\ 0 < bitmap_height image)) ->
  (exists e, value (resize L b quality w) = inl e)
  /\ match shrinkPolicy L requested (getImageType L b) b with
     | inl e => value (processImage L b name requested w) = inl e
     | inr _ =>
         value (processImage L b name requested w)
         = inr {| buffer := b; imageFormat := getImageType L b |}
     end.
Proof.
  intros bound quality Hbad.
  assert (Hfail : exists e, value (resize L b quality w) = inl e).
  { unfold resize, getOptionInt, bind, gets, lift, ret, throw.
    fold bound.
    destruct (jimp_read L b) as [e | image] eqn:Hread; [eauto |].
    destruct (resize_geometry L image bound) as [e | image1] eqn:Hgeo; [eauto |].
    assert (Hq : quality < 0 \/ 100 < quality).
    { destruct Hbad as [H | [H | [Hneg Hpos]]]; [lia | lia |].
      destruct (Hpos image eq_refl) as [Hw Hh].
      destruct (resize_geometry_negative_bound L image bound Hw Hh Hneg)
        as [e He]. congruence. }
    unfold Jimp.quality.
    replace ((quality <? 0) || (100 <? quality)) with true; [eauto |].
    symmetry. apply orb_true_iff.
    destruct Hq; [left | right]; apply Z.ltb_lt; lia. }
  split; [exact Hfail |].
  destruct Hfail as [e He].
  rewrite processImage_run.
  destruct (shrinkPolicy L requested (getImageType L b) b) as [e' | [|]];
    [reflexivity | | reflexivity].
  rewrite shrinkImage_run. fold quality. rewrite He. reflexivity.
Qed.

Lemma misconfigured_options_disable_shrink_witness :
  value (processImage Sample.libs Sample.big_png "a.png" true Misconfigured.world)
  = inr {| buffer := Sample.big_png;
           imageFormat := FormatObject "png" (Some "image/png") |}.
Proof.
  assert (Hbad : (-1 < 0)%Z
                 /\ forall image, jimp_read Sample.libs Sample.big_png = inr image ->
                      (0 < bitmap_width image /\ 0 < bitmap_height image)%Z).
  { split; [reflexivity |]. intros image [= <-]. split; reflexivity. }
  destruct (misconfigured_options_disable_shrink Sample.libs Sample.big_png
              "a.png" true Misconfigured.world (or_intror (or_intror Hbad)))
    as [_ Hvalue].
  exact Hvalue.
Defined.

End ResizeEdges.

(** ** The commit *)

Lemma commit_success (note : string) (n : Note) (r : ProcessedAsset)
    (m : string) (w : World) :
  notes w !! note = Some n ->
  getImageMimeFromExtension (get_ext (imageFormat r)) = inr m ->
  let w1 := with_notes (<[note := note_with_mime m n]>) w in
  let w2 := with_notes (<[note := note_with_mime m n]>) w1 in
  let w3 := with_notes
              (<[note := note_with_content (buffer r) (note_with_mime m n)]>) w2 in
  commit (Some note) r w
  = {| trace := [w1; w2; w3]; final := w3; value := inr tt |}.
Proof.
  intros Hnote Hmime. cbv zeta.
  unfold commit, transactional, lift. rewrite Hmime.
  open_services. run. rewrite Hnote. run.
  rewrite lookup_insert_eq. run. rewrite lookup_insert_eq. reflexivity.
Qed.

(** ** Entry points on a missing note *)

(** X6: when the parent id is not in [becca], [saveImage] throws a
    [TypeError] after its log line: no note is created, no id is
    drawn and no promise chain is started. *)
Theorem saveImage_missing_parent (L : Libs) (w : World) (parentId : string)
    (b : bytes) (name : string) (requested : bool) :
  notes w !! parentId = None ->
  let w1 := with_logLines (fun l => l ++ [LogInfo ("Saving image " +:+ name)]) w in
  saveImage L parentId b name requested w
  = {| trace := [w1]; final := w1;
       value := inl (TypeError "Cannot read properties of undefined") |}.
Proof.
  intros Hparent. cbv zeta.
  unfold saveImage. open_services. run.
  repeat (rewrite Hparent; run). reflexivity.
Qed.

Lemma saveImage_missing_parent_witness :
  value (saveImage Sample.libs "nowhere" Sample.big_png "a.png" true Sample.world)
  = inl (TypeError "Cannot read properties of undefined").
Proof.
  rewrite (saveImage_missing_parent Sample.libs Sample.world "nowhere"
             Sample.big_png "a.png" true eq_refl).
  reflexivity.
Defined.

(** X7: when the note id is not in [becca], [updateImage] throws a
    [TypeError] after its log line, and the run ends there: no
    revision is recorded, no note is written and no promise chain
    runs. *)
Theorem updateImage_unknown_note (L : Libs) (w : World) (id : string)
    (b : bytes) (name : string) :
  notes w !! id = None ->
  let o := updateImage_settled L id b name w in
  value o = inl (TypeError "Cannot read properties of undefined")
  /\ notes (final o) = notes w
  /\ noteRevisions (final o) = noteRevisions w
  /\ logLines (final o)
     = logLines w ++ [LogInfo ("Updating image " +:+ id +:+ ": " +:+ name)]
  /\ length (trace o) = 1.
Proof.
  intros Hnote. cbv zeta. unfold updateImage_settled, bind.
  rewrite (updateImage_missing L w id b name Hnote).
  repeat split; reflexivity.
Qed.

Lemma updateImage_unknown_note_witness :
  value (updateImage_settled Sample.libs "nowhere" Sample.big_png "a.png"
           Sample.world)
  = inl (TypeError "Cannot read properties of undefined").
Proof.
  destruct (updateImage_unknown_note Sample.libs Sample.world "nowhere"
              Sample.big_png "a.png" eq_refl) as [Hvalue _].
  exact Hvalue.
Defined.

(** ** Entry points to the settled state *)

Lemma stays_weaken {A} (R R' : World -> World -> Prop) (m : M A) :
  (forall w s, R w s -> R' w s) -> stays R m -> stays R' m.
Proof.
  intros Himp Hm w. destruct (Hm w) as [Htr Hfin]. split; [| auto].
  eapply Forall_impl; [exact Htr | auto].
Qed.

Lemma detached_commits (L : Libs) (id : string) (n : Note) (b : bytes)
    (name : string) (requested : bool) (w : World) (r : ProcessedAsset)
    (m : string) :
  notes w !! id = Some n ->
  value (processImage L b name requested w) = inr r ->
  getImageMimeFromExtension (get_ext (imageFormat r)) = inr m ->
  let o := detached L (Some id) b name requested w in
  value o = inr tt
  /\ notes (final o)
     = <[id := note_with_content (buffer r) (note_with_mime m n)]> (notes w)
  /\ noteRevisions (final o) = noteRevisions w.
Proof.
  intros Hnote Hval Hmime. cbv zeta. unfold detached, bind.
  destruct (processImage_same_store L b name requested w) as [_ [Hn Hr]].
  destruct (processImage L b name requested w) as [t w1 v].
  simpl in Hval, Hn, Hr. subst v.
  rewrite <- Hn in Hnote.
  rewrite (commit_success id n r m w1 Hnote Hmime). run.
  rewrite !insert_insert_eq, Hn, Hr. auto.
Qed.

(** X9: with the parent note in [becca] and an upload whose final
    bytes have a detected extension, [saveImage] followed by its
    promise chain fulfils with the record of [saveImage] and leaves
    the new note with the MIME derived from that extension, the final
    bytes as content, the sanitized name as title and the original
    name as its one label. *)
Theorem saveImage_settles_recognised (L : Libs) (w : World)
    (parentId : string) (parent : Note) (b : bytes) (name : string)
    (requested : bool) (r : ProcessedAsset) (m : string) :
  notes w !! parentId = Some parent ->
  value (processImage L b name requested w) = inr r ->
  getImageMimeFromExtension (get_ext (imageFormat r)) = inr m ->
  let o := then_settle (saveImage L parentId b name requested) w in
  let id := newEntityId w (idsDrawn w) in
  let fileName := sanitizeFilename L name in
  value o = inr {| res_fileName := fileName; res_note := Some id;
                   res_noteId := id;
                   res_url := "api/images/" +:+ id +:+ "/" +:+ fileName |}
  /\ notes (final o) !! id
     = Some {| parentNoteId := parentId; title := fileName;
               noteType := "image"; mime := m; content := buffer r;
               isProtected := isProtected parent && protectedSession w;
               labels := [("originalFileName", name)] |}.
Proof.
  intros Hparent Hval Hmime. cbv zeta. unfold then_settle, bind.
  rewrite (saveImage_run L w parentId parent b name requested Hparent).
  cbn [fst snd].
  match goal with
  | |- context [detached L (Some ?id) b name requested ?w3] =>
      assert (Hval3 : value (processImage L b name requested w3) = inr r)
        by (rewrite <- Hval; now apply processImage_value_options);
      assert (Hnote3 : notes w3 !! id = Some
                (note_with_labels (fun l => l ++ [("originalFileName", name)])
                   {| parentNoteId := parentId; title := sanitizeFilename L name;
                      noteType := "image"; mime := "unknown"; content := [];
                      isProtected := isProtected parent && protectedSession w;
                      labels := [] |}))
        by (run; apply lookup_insert_eq);
      destruct (detached_commits L id _ b name requested w3 r m
                  Hnote3 Hval3 Hmime) as (Hjob & Hnotes & _);
      destruct (detached L (Some id) b name requested w3) as [t wf v]
  end.
  simpl in Hjob, Hnotes. subst v. cbn [value final ret].
  split; [reflexivity |]. rewrite Hnotes. apply lookup_insert_eq.
Qed.

Lemma saveImage_settles_recognised_witness :
  (mime <$> notes (final (then_settle
                            (saveImage Sample.libs "root" Sample.big_png
                               "a.png" true) Sample.world)) !! "fresh1")
  = Some "image/jpg".
Proof.
  destruct (saveImage_settles_recognised Sample.libs Sample.world "root"
              Sample.folder Sample.big_png "a.png" true
              {| buffer := Sample.jpg_magic ++ Sample.be16 1000
                           ++ Sample.be16 667 ++ [x0a; x0b; x0c];
                 imageFormat := FormatObject "jpg" (Some "image/jpeg") |}
              "image/jpg" eq_refl eq_refl eq_refl) as [_ Hnote].
  cbv zeta in Hnote. cbn [newEntityId Sample.world] in Hnote.
  rewrite Hnote. reflexivity.
Defined.

(** ** What the entry points leave alone *)

Lemma same_notes_except_refl (id : string) (w : World) :
  same_notes_except id w w.
Proof. intros id' _. reflexivity. Qed.

Lemma same_notes_except_trans (id : string) (a b c : World) :
  same_notes_except id a b -> same_notes_except id b c ->
  same_notes_except id a c.
Proof.
  intros Hab Hbc id' Hne. rewrite (Hbc id' Hne). now apply Hab.
Qed.

Lemma same_store_notes_except (id : string) (w s : World) :
  same_store w s -> same_notes_except id w s.
Proof. intros [Hn _] id' _. now rewrite Hn. Qed.

Lemma update_note_frame (f : Note -> Note) (id : string) :
  stays (same_notes_except id) (update_note f (Some id)).
Proof.
  intros w. unfold update_note. open_services. run.
  destruct (notes w !! id) as [n |]; cbn [trace final].
  - assert (Hw : same_notes_except id w (with_notes (<[id := f n]>) w)).
    { intros id' Hne. run. apply lookup_insert_ne. congruence. }
    split; [constructor; [exact Hw | constructor] | exact Hw].
  - split; [constructor | apply same_notes_except_refl].
Qed.

Lemma detached_frame (L : Libs) (id : string) (b : bytes) (name : string)
    (requested : bool) :
  stays (same_notes_except id) (detached L (Some id) b name requested).
Proof.
  unfold detached. apply stays_bind; [apply same_notes_except_trans | |].
  - apply (stays_weaken same_store); [apply same_store_notes_except |].
    apply processImage_same_store.
  - intros r. unfold commit, note_set_mime, note_save, note_setContent.
    apply stays_transactional; [intros w s _ id' _; reflexivity |].
    stays_steps (same_notes_except_refl id) (same_notes_except_trans id)
      ltac:(apply update_note_frame).
Qed.

Lemma Forall_same_notes_except_trans (id : string) (a b : World)
    (l : list World) :
  same_notes_except id a b -> Forall (same_notes_except id b) l ->
  Forall (same_notes_except id a) l.
Proof.
  intros Hab Hl. eapply Forall_impl; [exact Hl |].
  intros s Hs. now apply (same_notes_except_trans id a b).
Qed.

(** X10: [updateImage] and the promise chain it starts never write a
    note other than the one they were called for: in every world of
    the run every other id holds what it held at the call. *)
Theorem updateImage_touches_one_note (L : Libs) (w : World) (id : string)
    (b : bytes) (name : string) :
  Forall (same_notes_except id w)
    (reachable (updateImage_settled L id b name) w).
Proof.
  unfold reachable, updateImage_settled, bind.
  constructor; [apply same_notes_except_refl |].
  destruct (notes w !! id) as [n |] eqn:Hnote.
  - rewrite (updateImage_run L w id n b name Hnote). cbv zeta.
    match goal with
    | |- context [detached L (Some id) b name true ?w4] =>
        assert (H4 : same_notes_except id w w4)
          by (intros id' Hne; run; rewrite lookup_insert_ne by congruence;
              destruct (isProtected n); reflexivity);
        destruct (detached_frame L id b name true w4) as [Htr _];
        destruct (detached L (Some id) b name true w4) as [t wf v]
    end.
    simpl in Htr. cbn [trace].
    apply Forall_app. split.
    + constructor; [intros id' _; reflexivity |].
      constructor; [intros id' _; reflexivity |].
      apply Forall_app. split.
      * destruct (isProtected n); constructor;
          [intros id' _; reflexivity | constructor].
      * constructor; [exact H4 | constructor].
    + now apply (Forall_same_notes_except_trans id w _ t H4).
  - rewrite (updateImage_missing L w id b name Hnote). cbn [trace].
    constructor; [intros id' _; reflexivity | constructor].
Qed.

(** X11: [saveImage] and the promise chain it starts never write a
    note other than the one stored under the id drawn from the
    generator: in every world of the run every other id holds what it
    held at the call. When the id drawn is not the parent's, the
    parent note is among those left as they were. (An id drawn that is
    already in use is not refused: the note under it is replaced.) *)
Theorem saveImage_touches_one_note (L : Libs) (w : World) (parentId : string)
    (b : bytes) (name : string) (requested : bool) :
  let id := newEntityId w (idsDrawn w) in
  let run := reachable (then_settle (saveImage L parentId b name requested)) w in
  Forall (same_notes_except id w) run
  /\ (id <> parentId ->
      Forall (fun s => notes s !! parentId = notes w !! parentId) run).
Proof.
  cbv zeta.
  assert (Hall : Forall (same_notes_except (newEntityId w (idsDrawn w)) w)
                   (reachable (then_settle (saveImage L parentId b name requested)) w)).
  { unfold reachable, then_settle, bind.
    constructor; [apply same_notes_except_refl |].
    destruct (notes w !! parentId) as [parent |] eqn:Hparent.
    - rewrite (saveImage_run L w parentId parent b name requested Hparent).
      cbv zeta. cbn [fst snd].
      match goal with
      | |- context [detached L (Some ?id) b name requested ?w3] =>
          assert (H3 : same_notes_except id w w3)
            by (intros id' Hne; run;
                rewrite !lookup_insert_ne by congruence; reflexivity);
          destruct (detached_frame L id b name requested w3) as [Htr _];
          destruct (detached L (Some id) b name requested w3) as [t wf v]
      end.
      simpl in Htr.
      assert (Ht : Forall (same_notes_except (newEntityId w (idsDrawn w)) w) t)
        by now apply (Forall_same_notes_except_trans _ w _ t H3).
      destruct v as [e | u]; cbn [trace ret]; rewrite ?app_nil_r.
      all: constructor; [intros id' _; reflexivity |].
      all: constructor;
        [intros id' Hne; run; rewrite lookup_insert_ne by congruence; reflexivity |].
      all: constructor; [exact H3 | exact Ht].
    - rewrite (saveImage_missing_parent L w parentId b name requested Hparent).
      cbn [trace].
      constructor; [intros id' _; reflexivity | constructor]. }
  split; [exact Hall |].
  intros Hfresh. eapply Forall_impl; [exact Hall |].
  intros s Hs. apply Hs. congruence.
Qed.

(** ** The update path, further *)

Lemma set_label_in (name v : string) (l : list (string * string)) :
  (name, v) ∈ set_label name v l.
Proof.
  induction l as [| [k x] r IH]; simpl.
  - apply list_elem_of_In. now left.
  - destruct (String.eqb k name) eqn:Hk.
    + apply String.eqb_eq in Hk. subst k. apply list_elem_of_In. now left.
    + apply elem_of_cons. now right.
Qed.

Lemma set_label_others (name v k x : string) (l : list (string * string)) :
  k <> name -> (k, x) ∈ set_label name v l <-> (k, x) ∈ l.
Proof.
  intros Hne. induction l as [| [k' x'] r IH]; simpl.
  - rewrite list_elem_of_singleton. split; [intros [= ? ?]; congruence |].
    intros H. apply list_elem_of_In in H. destruct H.
  - destruct (String.eqb k' name) eqn:Hk.
    + apply String.eqb_eq in Hk. subst k'.
      rewrite !elem_of_cons. split; (intros [[= ? ?] | H]; [congruence | now right]).
    + rewrite !elem_of_cons, IH. reflexivity.
Qed.

(** X13: when [updateImage] returns, the note still has the MIME and
    the content it had at the call (they change only when the promise
    chain commits); its label [originalFileName] holds the new name,
    and its other labels are as before. *)
Theorem updateImage_returns_before_commit (L : Libs) (w : World) (id : string)
    (n : Note) (b : bytes) (name : string) :
  notes w !! id = Some n ->
  exists n',
    notes (final (updateImage L id b name w)) !! id = Some n'
    /\ mime n' = mime n /\ content n' = content n
    /\ title n' = title n /\ isProtected n' = isProtected n
    /\ ("originalFileName", name) ∈ labels n'
    /\ forall k x, k <> "originalFileName" ->
         ((k, x) ∈ labels n' <-> (k, x) ∈ labels n).
Proof.
  intros Hnote. rewrite (updateImage_run L w id n b name Hnote).
  cbv zeta. run. eexists. split; [apply lookup_insert_eq |].
  cbn [mime content title isProtected labels note_with_labels].
  repeat (split; [reflexivity |]).
  split; [apply set_label_in |].
  intros k x Hne. now apply set_label_others.
Qed.

Lemma updateImage_returns_before_commit_witness :
  exists n',
    notes (final (updateImage Sample.libs "img1" Sample.big_png "b.png"
                    Sample.world)) !! "img1" = Some n'
    /\ mime n' = "image/png" /\ content n' = content Sample.picture.
Proof.
  destruct (updateImage_returns_before_commit Sample.libs Sample.world "img1"
              Sample.picture Sample.big_png "b.png" eq_refl)
    as (n' & Hnote & Hmime & Hcontent & _).
  exists n'. split; [exact Hnote |]. split; [exact Hmime | exact Hcontent].
Defined.

(** X12: a call of [updateImage] on a note of [becca] records exactly
    one revision, after those on record, whether the promise chain
    commits or rejects: it holds the title, the MIME and the content
    the note had at the call, and is protected exactly when the note
    is. *)
Theorem updateImage_records_one_revision (L : Libs) (w : World) (id : string)
    (n : Note) (b : bytes) (name : string) :
  notes w !! id = Some n ->
  exists older newest,
    noteRevisions (final (updateImage_settled L id b name w))
    = older ++ [newest]
    /\ length older = length (noteRevisions w)
    /\ rev_noteId newest = id
    /\ rev_title newest = title n
    /\ rev_mime newest = mime n
    /\ rev_content newest = content n
    /\ rev_isProtected newest = isProtected n.
Proof.
  intros Hnote. unfold updateImage_settled, bind.
  rewrite (updateImage_run L w id n b name Hnote). cbv zeta.
  match goal with
  | |- context [detached L (Some id) b name true ?w4] =>
      destruct (detached_same_revisions L (Some id) b name true w4) as [_ Hfin];
      destruct (detached L (Some id) b name true w4) as [t wf v]
  end.
  unfold same_revisions in Hfin. simpl in Hfin. cbn [final]. rewrite Hfin.
  run. destruct (isProtected n) eqn:Hprot; run.
  - rewrite map_app. cbn [map].
    eexists _, _. split; [reflexivity |].
    split; [apply length_map |].
    unfold protect_revision. cbn [snapshot_of rev_noteId].
    rewrite String.eqb_refl. repeat split; reflexivity.
  - eexists _, _. split; [reflexivity |]. repeat split; reflexivity.
Qed.

Lemma updateImage_records_one_revision_witness :
  exists older newest,
    noteRevisions (final (updateImage_settled Sample.libs "img1" Sample.big_png
                            "b.png" Sample.world))
    = older ++ [newest]
    /\ rev_content newest = content Sample.picture.
Proof.
  destruct (updateImage_records_one_revision Sample.libs Sample.world "img1"
              Sample.picture Sample.big_png "b.png" eq_refl)
    as (older & newest & Hrevs & _ & _ & _ & _ & Hcontent & _).
  exists older, newest. split; [exact Hrevs | exact Hcontent].
Defined.

(** X15: an update with a buffer that is no SVG, has no raster
    signature and reaches the commit as it is still records the
    revision and renames the label, but its promise chain rejects at
    [toLowerCase]: the note keeps the MIME and the content it had. *)
Theorem updateImage_unknown_format (L : Libs) (w : World) (id : string)
    (n : Note) (b : bytes) (name : string) :
  notes w !! id = Some n ->
  isSvg L b = false -> imageType L b = None ->
  shrinkPolicy L true (getImageType L b) b = inr false
  \/ (shrinkPolicy L true (getImageType L b) b = inr true
      /\ exists e, jimp_read L b = inl e) ->
  let o := updateImage_settled L id b name w in
  value o = inl (TypeError "Cannot read property 'toLowerCase' of undefined")
  /\ has_snapshot (final o) id (content n)
  /\ exists n',
       notes (final o) !! id = Some n'
       /\ mime n' = mime n /\ content n' = content n
       /\ ("originalFileName", name) ∈ labels n'.
Proof.
  intros Hnote Hsvg Htype Hcase. cbv zeta.
  destruct (getImageType_without_signature L b Hsvg Htype) as [_ Hext].
  unfold updateImage_settled, bind.
  rewrite (updateImage_run L w id n b name Hnote). cbv zeta.
  match goal with
  | |- context [detached L (Some id) b name true ?w4] =>
      destruct (detached_on_bare_string L (Some id) b name true w4 _
                  (processImage_keeps_undecodable L b name true w4 Hcase) Hext)
        as (Hval & _ & Hn & Hr);
      assert (H4 : has_snapshot w4 id (content n));
      [| destruct (detached L (Some id) b name true w4) as [t wf v] ]
  end.
  { destruct (isProtected n).
    - apply has_snapshot_protect. exists (snapshot_of id n).
      split; [| now split]. run. apply elem_of_app. right. now left.
    - exists (snapshot_of id n).
      split; [| now split]. run. apply elem_of_app. right. now left. }
  simpl in Hval, Hn, Hr. subst v. cbn [value final].
  split; [reflexivity |]. split.
  - now apply (has_snapshot_same_revisions _ wf) in H4.
  - rewrite Hn. run. eexists. split; [apply lookup_insert_eq |].
    cbn [mime content labels note_with_labels].
    repeat (split; [reflexivity |]). apply set_label_in.
Qed.

Lemma updateImage_unknown_format_witness :
  value (updateImage_settled Sample.libs "img1" Sample.noise "b.png" Sample.world)
  = inl (TypeError "Cannot read property 'toLowerCase' of undefined").
Proof.
  destruct (updateImage_unknown_format Sample.libs Sample.world "img1"
              Sample.picture Sample.noise "b.png" eq_refl eq_refl eq_refl
              (or_intror (conj eq_refl (ex_intro _ _ eq_refl)))) as [Hvalue _].
  exact Hvalue.
Defined.
